(** * The data-consistency core of the mail client

    A shallow embedding of
    - [lib/auth] (access-token holder, stored user, cross-tab channel),
    - [lib/api/client.ts] (request and response interceptors, the
      single-flight token refresh),
    - [context/AuthContext.tsx] (the cross-tab message handler),
    - [lib/api/gmail.cached.api] (stale-while-revalidate facade) and
    - the push notification handler of the inbox page.

    Asynchronous code is cut at its [await]s: every piece that runs
    without suspension is a function on the state, and the event loop is
    a step function over the events that resume the pieces. *)

From stdpp Require Import gmap strings list fin_maps.
From Stdlib Require Import ZArith Lia.

Local Open Scope string_scope.
Local Open Scope list_scope.

(** ** JavaScript strings *)

Module Js.

(** [s.startsWith(p)] *)
Fixpoint startsWith (s p : string) {struct p} : bool :=
  match p with
  | EmptyString => true
  | String a p' =>
      match s with
      | EmptyString => false
      | String b s' => if Ascii.eqb a b then startsWith s' p' else false
      end
  end.

(** [s.includes(sub)]: [sub] starts at some position of [s]. *)
Fixpoint includes (s sub : string) : bool :=
  startsWith s sub ||
  match s with
  | EmptyString => false
  | String _ s' => includes s' sub
  end.

(** Truthiness of a string: only the empty string is falsy. *)
Definition truthy (s : string) : bool :=
  match s with
  | EmptyString => false
  | String _ _ => true
  end.

(** Truthiness of a number: zero is falsy. *)
Definition truthyZ (z : Z) : bool := negb (z =? 0)%Z.

End Js.

(** ** Data model *)

(** [StoredUser]; the field [provider] has the single value ['google']. *)
Record StoredUser := mkUser {
  _id : string;
  email : string;
  name : option string;
  avatarUrl : option string;
  googleId : option string
}.

Inductive AuthBroadcastMessage :=
| Logout
| Login (user : StoredUser) (accessToken : string).

(** The fields of an axios request config that the interceptors read or
    write. [headers] is a JavaScript object used as a map. *)
Record RequestConfig := mkConfig {
  url : option string;
  headers : option (gmap string string);
  _retry : bool;
  withCredentials : bool
}.

(** [error.config] and [error.response?.status]. *)
Record AxiosError := mkError {
  config : RequestConfig;
  status : option nat
}.

(** What a tab does to the outside world. *)
Inductive Effect :=
| Send (c : RequestConfig)
    (* a request handed to the network, as the request interceptor left it *)
| Retry (original sent : RequestConfig)
    (* [apiClient(originalRequest)] inside the response interceptor: [sent]
       goes to the network and the promise of the failed request follows it *)
| Reject (c : RequestConfig) (e : AxiosError)
    (* the promise of the failed request [c] is rejected with [e] *)
| PostMessage (m : AuthBroadcastMessage)
| LocationAssign (path : string)
| QueryClientClear.

(** An interceptor run suspended at [await performTokenRefresh()]: its
    [originalRequest] and the refresh request it put on the network. *)
Record Frame := mkFrame {
  original : RequestConfig;
  refreshCall : RequestConfig
}.

(** Module-level variables of lib/auth. *)
Record AuthModule := mkAuth {
  accessTokenMemory : option string;
  accessExpiryTimer : option nat;
  authChannel : bool   (* has the [BroadcastChannel] object been created *)
}.

(** The parts of [window] the code touches. *)
Record Window := mkWindow {
  hasBroadcastChannel : bool;   (* [typeof BroadcastChannel !== 'undefined'] *)
  localStorage : gmap string string;
  pathname : string;            (* [window.location.pathname] *)
  timers : list nat;            (* ids of the armed timeouts *)
  nextTimer : nat               (* the id the next [setTimeout] returns *)
}.

(** Module-level variables of client.ts, and the interceptor runs that
    are suspended at their [await]. *)
Record ClientModule := mkClient {
  isRefreshing : bool;
  pendingRequests : list RequestConfig;  (* each closure is its [originalRequest] *)
  awaiting : list Frame
}.

Record World := mkWorld {
  auth : AuthModule;
  window : Window;
  client : ClientModule;
  userState : option StoredUser;   (* the [useState] cell of AuthProvider *)
  log : list Effect                (* oldest first *)
}.

Definition set_accessTokenMemory (v : option string) (a : AuthModule) : AuthModule :=
  mkAuth v (accessExpiryTimer a) (authChannel a).
Definition set_accessExpiryTimer (v : option nat) (a : AuthModule) : AuthModule :=
  mkAuth (accessTokenMemory a) v (authChannel a).
Definition set_authChannel (v : bool) (a : AuthModule) : AuthModule :=
  mkAuth (accessTokenMemory a) (accessExpiryTimer a) v.

Definition set_localStorage (v : gmap string string) (b : Window) : Window :=
  mkWindow (hasBroadcastChannel b) v (pathname b) (timers b) (nextTimer b).
Definition set_timers (v : list nat) (n : nat) (b : Window) : Window :=
  mkWindow (hasBroadcastChannel b) (localStorage b) (pathname b) v n.

Definition set_isRefreshing (v : bool) (c : ClientModule) : ClientModule :=
  mkClient v (pendingRequests c) (awaiting c).
Definition set_pendingRequests (v : list RequestConfig) (c : ClientModule) : ClientModule :=
  mkClient (isRefreshing c) v (awaiting c).
Definition set_awaiting (v : list Frame) (c : ClientModule) : ClientModule :=
  mkClient (isRefreshing c) (pendingRequests c) v.

Definition on_auth (f : AuthModule -> AuthModule) (w : World) : World :=
  mkWorld (f (auth w)) (window w) (client w) (userState w) (log w).
Definition on_window (f : Window -> Window) (w : World) : World :=
  mkWorld (auth w) (f (window w)) (client w) (userState w) (log w).
Definition on_client (f : ClientModule -> ClientModule) (w : World) : World :=
  mkWorld (auth w) (window w) (f (client w)) (userState w) (log w).
Definition setUserState (v : option StoredUser) (w : World) : World :=
  mkWorld (auth w) (window w) (client w) v (log w).
Definition emit (e : Effect) (w : World) : World :=
  mkWorld (auth w) (window w) (client w) (userState w) (log w ++ [e]).

(** ** Reading the log *)

(** The failed requests that were resubmitted. *)
Definition retried (l : list Effect) : list RequestConfig :=
  omap (fun e => match e with Retry o _ => Some o | _ => None end) l.

(** The failed requests whose promise was rejected. *)
Definition rejected (l : list Effect) : list RequestConfig :=
  omap (fun e => match e with Reject c _ => Some c | _ => None end) l.

(** The messages posted to the other tabs. *)
Definition posted (l : list Effect) : list AuthBroadcastMessage :=
  omap (fun e => match e with PostMessage m => Some m | _ => None end) l.

(** The requests handed to the network outside of a retry. *)
Definition sent (l : list Effect) : list RequestConfig :=
  omap (fun e => match e with Send c => Some c | _ => None end) l.

(** [config.headers?.Authorization] *)
Definition authorization (c : RequestConfig) : option string :=
  default ∅ (headers c) !! "Authorization".

(** ** Browser primitives *)

Definition clearTimeout (id : nat) (b : Window) : Window :=
  set_timers (filter (fun i => i <> id) (timers b)) (nextTimer b) b.

Definition setTimeout (b : Window) : Window :=
  set_timers (timers b ++ [nextTimer b]) (S (nextTimer b)) b.

Definition removeItem (k : string) (b : Window) : Window :=
  set_localStorage (delete k (localStorage b)) b.

Definition setItem (k v : string) (b : Window) : Window :=
  set_localStorage (<[k := v]> (localStorage b)) b.

(** The builtins of the browser that the code calls and that are not
    interpreted here. *)
Class Builtins := {
  (** [JSON.parse(atob(token.split('.')[1] || '')).exp] when decoding
      succeeds and the claim is a number *)
  jwt_exp : string -> option Z;
  (** [JSON.stringify] on a [StoredUser] *)
  JSON_stringify : StoredUser -> string
}.

Section Tab.

Context `{Builtins}.

(** ** lib/auth *)

Definition initBroadcastChannel (w : World) : World :=
  if negb (hasBroadcastChannel (window w)) then w
  else if authChannel (auth w) then w
  else on_auth (set_authChannel true) w.

(** [postMessage] is taken to succeed; the source catches and logs a
    failure of it. *)
Definition broadcastAuthChange (m : AuthBroadcastMessage) (w : World) : World :=
  if authChannel (auth w) then emit (PostMessage m) w else w.

Definition decodeJwtExp (token : option string) : option Z :=
  match token with
  | None => None
  | Some t =>
      if Js.truthy t then (fun e => e * 1000)%Z <$> jwt_exp t else None
  end.

(** [if (timerId) window.clearTimeout(timerId)] *)
Definition clearTimer (timerId : option nat) (w : World) : World :=
  match timerId with
  | Some (S n) => on_window (clearTimeout (S n)) w
  | _ => w
  end.

(** The callback of the timeout is empty, so only the timer is kept. *)
Definition scheduleAccessExpiryWatcher (w : World) : World :=
  let w1 := clearTimer (accessExpiryTimer (auth w)) w in
  match decodeJwtExp (accessTokenMemory (auth w1)) with
  | Some accessExpMs =>
      if Js.truthyZ accessExpMs then
        on_auth (set_accessExpiryTimer (Some (nextTimer (window w1))))
          (on_window setTimeout w1)
      else w1
  | None => w1
  end.

Definition getAccessToken (w : World) : option string :=
  accessTokenMemory (auth w).

Definition setAccessToken (token : option string) (w : World) : World :=
  scheduleAccessExpiryWatcher (on_auth (set_accessTokenMemory token) w).

Definition setStoredUser (user : option StoredUser) (w : World) : World :=
  match user with
  | Some u => on_window (setItem "user" (JSON_stringify u)) w
  | None => on_window (removeItem "user") w
  end.

Definition persistLoginInfo (user : StoredUser) (accessToken : string)
    (w : World) : World :=
  let w := setStoredUser (Some user) w in
  let w := setAccessToken (Some accessToken) w in
  broadcastAuthChange (Login user accessToken) w.

Definition clearLocalAuth (w : World) : World :=
  let w := on_auth (set_accessTokenMemory None) w in
  let w := on_window (removeItem "user") w in
  let w := clearTimer (accessExpiryTimer (auth w)) w in
  on_auth (set_accessExpiryTimer None) w.

Definition clearAllAuth (w : World) : World :=
  broadcastAuthChange Logout (clearLocalAuth w).

Definition initAuthWatchers (w : World) : World :=
  initBroadcastChannel (scheduleAccessExpiryWatcher w).

(** ** context/AuthContext.tsx *)

Definition handleAuthBroadcast (message : AuthBroadcastMessage) (w : World)
    : World :=
  match message with
  | Logout =>
      let w := clearLocalAuth w in
      let w := setUserState None w in
      emit QueryClientClear w
  | Login user accessToken =>
      let w := setUserState (Some user) w in
      setAccessToken (Some accessToken) w
  end.

(** [setUser] of the context value. *)
Definition setUser (nextUser : option StoredUser) (w : World) : World :=
  setStoredUser nextUser (setUserState nextUser w).

(** ** lib/api/client.ts *)

(** The instance defaults: [Content-Type] header and [withCredentials]. *)
Definition defaultHeaders : gmap string string :=
  {[ "Content-Type" := "application/json" ]}.

(** The config of [apiClient.post('/api/auth/refresh', {})]. *)
Definition refreshRequest : RequestConfig :=
  mkConfig (Some "/api/auth/refresh") (Some defaultHeaders) false true.

(** [c.headers = c.headers ?? {}; c.headers.Authorization = v] *)
Definition setAuthorization (v : string) (c : RequestConfig) : RequestConfig :=
  mkConfig (url c) (Some (<["Authorization" := v]> (default ∅ (headers c))))
    (_retry c) (withCredentials c).

Definition bearer (token : string) : string := "Bearer " +:+ token.

(** The request interceptor. *)
Definition requestInterceptor (w : World) (c : RequestConfig) : RequestConfig :=
  match getAccessToken w with
  | Some accessToken =>
      if Js.truthy accessToken then setAuthorization (bearer accessToken) c
      else c
  | None => c
  end.

(** [apiClient(c)] called by the application. *)
Definition apiClient (c : RequestConfig) (w : World) : World :=
  emit (Send (requestInterceptor w c)) w.

(** [originalRequest.headers.Authorization = `Bearer ${token}`] followed
    by [apiClient(originalRequest)], whose promise is handed to the
    caller of the failed request. *)
Definition resubmit (token : string) (originalRequest : RequestConfig)
    (w : World) : World :=
  emit (Retry originalRequest
          (requestInterceptor w (setAuthorization (bearer token) originalRequest)))
       w.

Definition onRefreshed (token : string) (w : World) : World :=
  let w := fold_left (fun w cb => resubmit token cb w)
             (pendingRequests (client w)) w in
  on_client (set_pendingRequests []) w.

Definition isAuthEndpoint (u : string) : bool :=
  Js.includes u "/api/auth/refresh" ||
  Js.includes u "/api/auth/logout" ||
  Js.includes u "/api/auth/google".

Definition is401 (s : option nat) : bool :=
  match s with
  | Some n => Nat.eqb n 401
  | None => false
  end.

(** [originalRequest._retry = true] *)
Definition markRetry (c : RequestConfig) : RequestConfig :=
  mkConfig (url c) (headers c) true (withCredentials c).

(** How a run of the rejected-response handler leaves its promise when
    it stops or suspends. *)
Inductive Outcome :=
| Rejected (e : AxiosError)   (* [return Promise.reject(error)] *)
| Queued                      (* waits in [pendingRequests] *)
| Refreshing.                 (* suspended at [await performTokenRefresh()] *)

(** [pendingRequests.push((token) => { ... })] *)
Definition enqueue (originalRequest : RequestConfig) (w : World) : World :=
  on_client (fun c => set_pendingRequests
                        (pendingRequests c ++ [originalRequest]) c) w.

(** [isRefreshing = true] and [performTokenRefresh()] up to its await:
    the refresh request passes the request interceptor like any other. *)
Definition startRefresh (originalRequest : RequestConfig) (w : World) : World :=
  let w := on_client (set_isRefreshing true) w in
  let sent := requestInterceptor w refreshRequest in
  let w := emit (Send sent) w in
  on_client (fun c => set_awaiting
                        (awaiting c ++ [mkFrame originalRequest sent]) c) w.

(** The rejected-response handler, up to its first suspension. *)
Definition onResponseError (error : AxiosError) (w : World) : World * Outcome :=
  let originalRequest := config error in
  let u := default "" (url originalRequest) in
  if is401 (status error) && negb (_retry originalRequest)
     && negb (isAuthEndpoint u)
  then
    let originalRequest := markRetry originalRequest in
    if isRefreshing (client w) then (enqueue originalRequest w, Queued)
    else (startRefresh originalRequest w, Refreshing)
  else (w, Rejected error).

(** The [try] block after the refresh call resolved, and [finally]. *)
Definition refreshFulfilled (fr : Frame) (accessToken : string) (w : World)
    : World :=
  let w := setAccessToken (Some accessToken) w in
  let w := onRefreshed accessToken w in
  let w := resubmit accessToken (original fr) w in
  on_client (set_isRefreshing false) w.

(** The [catch] block, and [finally]. *)
Definition refreshRejected (fr : Frame) (e : AxiosError) (w : World) : World :=
  let w := clearAllAuth w in
  let w := if String.eqb (pathname (window w)) "/login" then w
           else emit (LocationAssign "/login") w in
  let w := emit (Reject (original fr) e) w in
  on_client (set_isRefreshing false) w.

(** ** The event loop of one tab *)

Inductive Event :=
| Call (c : RequestConfig)
    (* the application calls [apiClient(c)] *)
| ResponseError (e : AxiosError)
    (* a request of the application fails with [e] *)
| RefreshResponse (k : nat) (r : string + option nat)
    (* the refresh call of the [k]-th suspended run is answered: a new
       access token, or a failure with its status *)
| AuthBroadcast (m : AuthBroadcastMessage)
    (* a message of another tab arrives *)
| PersistLogin (user : StoredUser) (accessToken : string).
    (* the login page calls [persistLoginInfo] *)

Definition dropFrame (k : nat) (w : World) : World :=
  on_client (fun c => set_awaiting (delete k (awaiting c)) c) w.

Definition step (ev : Event) (w : World) : option World :=
  match ev with
  | Call c => Some (apiClient c w)
  | ResponseError e =>
      let '(w', o) := onResponseError e w in
      Some match o with
           | Rejected e' => emit (Reject (config e) e') w'
           | _ => w'
           end
  | RefreshResponse k r =>
      match awaiting (client w) !! k with
      | None => None
      | Some fr =>
          match r with
          | inl accessToken =>
              Some (refreshFulfilled fr accessToken (dropFrame k w))
          | inr st =>
              (* the failure passes the rejected-response handler first *)
              let '(w', o) := onResponseError (mkError (refreshCall fr) st) w in
              Some match o with
                   | Rejected e => refreshRejected fr e (dropFrame k w')
                   | _ => w'
                   end
          end
      end
  | AuthBroadcast m => Some (handleAuthBroadcast m w)
  | PersistLogin user accessToken => Some (persistLoginInfo user accessToken w)
  end.

Fixpoint run (evs : list Event) (w : World) : option World :=
  match evs with
  | [] => Some w
  | ev :: evs' =>
      match step ev w with
      | Some w' => run evs' w'
      | None => None
      end
  end.

(** A freshly loaded tab, after [initAuthWatchers]. *)
Definition boot (bc : bool) (storage : gmap string string) (path : string)
    (user : option StoredUser) : World :=
  initAuthWatchers
    (mkWorld (mkAuth None None false) (mkWindow bc storage path [] 1)
       (mkClient false [] []) user []).

Definition reachable (w : World) : Prop :=
  exists bc storage path user evs,
    run evs (boot bc storage path user) = Some w.

(** Refresh calls that were issued and not answered yet. *)
Definition refreshInFlight (w : World) : nat := length (awaiting (client w)).

(** ** Invariant of the event loop *)

(** The flag [isRefreshing] is set exactly while one refresh call is
    unanswered, the suspended runs wait for a call to the refresh
    endpoint, and timer ids are positive. *)
Definition singleFlight (w : World) : Prop :=
  length (awaiting (client w)) = (if isRefreshing (client w) then 1 else 0) /\
  Forall (fun fr => url (refreshCall fr) = Some "/api/auth/refresh")
    (awaiting (client w)) /\
  accessExpiryTimer (auth w) <> Some 0 /\
  nextTimer (window w) <> 0.

(** The requests of a run of events that the response handler puts into
    the queue when a refresh is in flight throughout. *)
Definition queuedBy (evs : list Event) : list RequestConfig :=
  omap (fun ev =>
          match ev with
          | ResponseError e =>
              if is401 (status e) && negb (_retry (config e))
                 && negb (isAuthEndpoint (default "" (url (config e))))
              then Some (markRetry (config e)) else None
          | _ => None
          end) evs.

(** The requests the application called for in a run of events. *)
Definition called (evs : list Event) : list RequestConfig :=
  omap (fun ev => match ev with Call c => Some c | _ => None end) evs.

Definition isRefreshResponse (ev : Event) : bool :=
  match ev with
  | RefreshResponse _ _ => true
  | _ => false
  end.

(** A response the interceptor answers with a refresh: status 401, not
    retried before, not an auth endpoint. *)
Definition unauthorized (e : AxiosError) : Prop :=
  status e = Some 401 /\
  _retry (config e) = false /\
  isAuthEndpoint (default "" (url (config e))) = false.

End Tab.

(** ** The cache and the stale-while-revalidate facade *)

(** An [async] function either returns while it runs, or suspends at an
    [await] of the live call and leaves what it needs to go on. *)
Inductive Progress (R K : Type) :=
| Returned (r : R)
| Suspended (k : K).
Arguments Returned {R K} r.
Arguments Suspended {R K} k.

(** How the promise of a suspended function settles. The error of a
    failed live call is its message. *)
Inductive Settled (R : Type) :=
| Resolved (r : R)
| Thrown (message : string).
Arguments Resolved {R} r.
Arguments Thrown {R} message.

Section Facade.

(** Payload shapes are passed through unchanged. *)
Context {Mailbox EmailItem Meta EmailDetail : Type}.

(** Modelled from the spec: lib/db/emailCache (the Cache Manager over the
    persistent store) is not among the sources. The store holds one
    mailbox list, one email-list page per mailbox id and page token (no
    token for the first page) and one detail per email id; a miss is an
    absent value, a write replaces the entry as a whole, and the
    invalidations delete the entries. Freshness metadata is left out: the
    facade never reads it. *)
Record Cache := mkCache {
  mailboxList : option (list Mailbox);
  emailLists : gmap (string * option string) (list EmailItem * Meta);
  emailDetails : gmap string EmailDetail
}.

Record CachedMailboxes := mkCachedMailboxes { mailboxes_data : list Mailbox }.
Record CachedEmailList := mkCachedEmailList {
  list_data : list EmailItem;
  list_meta : Meta
}.
Record CachedEmail := mkCachedEmail { email_data : EmailDetail }.

(** Modelled from the spec: [getMailboxes()] of the Cache Manager. *)
Definition getCachedMailboxes (c : Cache) : option CachedMailboxes :=
  mkCachedMailboxes <$> mailboxList c.

(** Modelled from the spec: [putMailboxes(list)]. *)
Definition cacheMailboxes (l : list Mailbox) (c : Cache) : Cache :=
  mkCache (Some l) (emailLists c) (emailDetails c).

(** Modelled from the spec: [getEmailList(mailboxId, pageToken)]. *)
Definition getCachedEmailList (mailboxId : string) (pageToken : option string)
    (c : Cache) : option CachedEmailList :=
  (fun p => mkCachedEmailList p.1 p.2) <$> emailLists c !! (mailboxId, pageToken).

(** Modelled from the spec: [putEmailList(mailboxId, pageToken, items, meta)]. *)
Definition cacheEmailList (mailboxId : string) (pageToken : option string)
    (items : list EmailItem) (meta : Meta) (c : Cache) : Cache :=
  mkCache (mailboxList c)
    (<[(mailboxId, pageToken) := (items, meta)]> (emailLists c))
    (emailDetails c).

(** Modelled from the spec: [getEmailDetail(id)]. *)
Definition getCachedEmail (emailId : string) (c : Cache) : option CachedEmail :=
  mkCachedEmail <$> emailDetails c !! emailId.

(** Modelled from the spec: [putEmailDetail(id, detail)]. *)
Definition cacheEmail (emailId : string) (d : EmailDetail) (c : Cache) : Cache :=
  mkCache (mailboxList c) (emailLists c) (<[emailId := d]> (emailDetails c)).

(** Modelled from the spec: [invalidateAllListsForMailbox()]. *)
Definition invalidateAllEmailListsForMailbox (c : Cache) : Cache :=
  mkCache (mailboxList c) ∅ (emailDetails c).

(** Modelled from the spec: [invalidateMailboxes()]. *)
Definition invalidateMailboxes (c : Cache) : Cache :=
  mkCache None (emailLists c) (emailDetails c).

(** Response envelopes [{status, data}]. *)
Record MailboxResponse := mkMailboxResponse {
  mr_status : string;
  mr_mailboxes : list Mailbox          (* [data.mailboxes] *)
}.
Record MailboxEmailsResponse := mkMailboxEmailsResponse {
  er_status : string;
  er_data : list EmailItem;            (* [data.data] *)
  er_meta : Meta                       (* [data.meta] *)
}.
Record EmailDetailResponse := mkEmailDetailResponse {
  dr_status : string;
  dr_data : EmailDetail
}.

(** Calls of the uncached API ([baseApi], lib/api/gmail.api); what they
    answer is an input of the model. *)
Inductive LiveCall :=
| GetMailboxes
| GetMailboxEmailsInfinite (mailboxId : string) (pageToken : option string)
    (pageSize : nat)
| GetEmailDetail (emailId : string).

(** A live call whose promise nobody awaits; the handlers of its [then]
    and [catch] are fixed by the read that started it. *)
Inductive Background :=
| BgMailboxes
| BgEmailList (mailboxId : string) (pageToken : option string)
| BgEmailDetail (emailId : string).

#[global] Instance Background_eq_dec : EqDecision Background.
Proof. solve_decision. Defined.

Inductive FacadeEffect :=
| Fetch (call : LiveCall)
| ConsoleWarn (label message : string).

Record Facade := mkFacade {
  cache : Cache;
  background : list Background;   (* live calls running detached *)
  effects : list FacadeEffect     (* oldest first *)
}.

Definition on_cache (f : Cache -> Cache) (s : Facade) : Facade :=
  mkFacade (f (cache s)) (background s) (effects s).
Definition fetch (call : LiveCall) (s : Facade) : Facade :=
  mkFacade (cache s) (background s) (effects s ++ [Fetch call]).
Definition detach (b : Background) (s : Facade) : Facade :=
  mkFacade (cache s) (background s ++ [b]) (effects s).
Definition warn (label message : string) (s : Facade) : Facade :=
  mkFacade (cache s) (background s) (effects s ++ [ConsoleWarn label message]).

(** [getMailboxesCached], up to its return or its await of the live call. *)
Definition getMailboxesCached (s : Facade)
    : Facade * Progress MailboxResponse unit :=
  match getCachedMailboxes (cache s) with
  | Some cached =>
      let s := detach BgMailboxes (fetch GetMailboxes s) in
      (s, Returned (mkMailboxResponse "success" (mailboxes_data cached)))
  | None => (fetch GetMailboxes s, Suspended ())
  end.

(** The rest of [getMailboxesCached] once the awaited live call settled. *)
Definition getMailboxesCached_resume (live : string + MailboxResponse)
    (s : Facade) : Facade * Settled MailboxResponse :=
  match live with
  | inr response =>
      (on_cache (cacheMailboxes (mr_mailboxes response)) s, Resolved response)
  | inl message => (s, Thrown message)
  end.

(** What [getMailboxEmailsInfiniteCached] keeps across its await. *)
Record EmailListWait := mkEmailListWait {
  wait_mailboxId : string;
  wait_pageToken : option string;
  wait_cached : option CachedEmailList
}.

(** [getMailboxEmailsInfiniteCached]; [pageSize] defaults to 20. *)
Definition getMailboxEmailsInfiniteCached (mailboxId : string)
    (pageToken : option string) (pageSize : option nat) (s : Facade)
    : Facade * Progress MailboxEmailsResponse EmailListWait :=
  let pageSize := default 20 pageSize in
  let cached := getCachedEmailList mailboxId pageToken (cache s) in
  let isFirstPage := bool_decide (pageToken = None) in
  match isFirstPage, cached with
  | true, Some c =>
      let s := fetch (GetMailboxEmailsInfinite mailboxId pageToken pageSize) s in
      let s := detach (BgEmailList mailboxId pageToken) s in
      (s, Returned (mkMailboxEmailsResponse "success" (list_data c) (list_meta c)))
  | _, _ =>
      (fetch (GetMailboxEmailsInfinite mailboxId pageToken pageSize) s,
       Suspended (mkEmailListWait mailboxId pageToken cached))
  end.

(** The [try] block after the live call settled, and the [catch] block. *)
Definition getMailboxEmailsInfiniteCached_resume (k : EmailListWait)
    (live : string + MailboxEmailsResponse) (s : Facade)
    : Facade * Settled MailboxEmailsResponse :=
  match live with
  | inr response =>
      (on_cache (cacheEmailList (wait_mailboxId k) (wait_pageToken k)
                   (er_data response) (er_meta response)) s,
       Resolved response)
  | inl message =>
      match wait_cached k with
      | Some c =>
          (s, Resolved (mkMailboxEmailsResponse "success" (list_data c) (list_meta c)))
      | None => (s, Thrown message)
      end
  end.

(** [getEmailDetailCached]. *)
Definition getEmailDetailCached (emailId : string) (s : Facade)
    : Facade * Progress EmailDetailResponse string :=
  match getCachedEmail emailId (cache s) with
  | Some cached =>
      let s := detach (BgEmailDetail emailId) (fetch (GetEmailDetail emailId) s) in
      (s, Returned (mkEmailDetailResponse "success" (email_data cached)))
  | None => (fetch (GetEmailDetail emailId) s, Suspended emailId)
  end.

Definition getEmailDetailCached_resume (emailId : string)
    (live : string + EmailDetailResponse) (s : Facade)
    : Facade * Settled EmailDetailResponse :=
  match live with
  | inr response =>
      (on_cache (cacheEmail emailId (dr_data response)) s, Resolved response)
  | inl message => (s, Thrown message)
  end.

(** What a detached live call answers when it succeeds. *)
Definition Answer (b : Background) : Type :=
  match b with
  | BgMailboxes => MailboxResponse
  | BgEmailList _ _ => MailboxEmailsResponse
  | BgEmailDetail _ => EmailDetailResponse
  end.

(** The [then] and [catch] handlers of a detached live call. Nothing
    reaches the caller of the read: the only results are the cache and
    the console. *)
Definition settleBackground (b : Background) : string + Answer b -> Facade -> Facade :=
  match b with
  | BgMailboxes => fun live s =>
      match live with
      | inr response => on_cache (cacheMailboxes (mr_mailboxes response)) s
      | inl message => warn "Background mailbox fetch failed:" message s
      end
  | BgEmailList mailboxId pageToken => fun live s =>
      match live with
      | inr response =>
          on_cache (cacheEmailList mailboxId pageToken
                      (er_data response) (er_meta response)) s
      | inl message => warn "Background email fetch failed:" message s
      end
  | BgEmailDetail emailId => fun live s =>
      match live with
      | inr response => on_cache (cacheEmail emailId (dr_data response)) s
      | inl message => warn "Background email detail fetch failed:" message s
      end
  end.

(** The detached call at position [i] is [b] and settles with [live]. *)
Definition backgroundSettles (i : nat) (b : Background) (live : string + Answer b)
    (s : Facade) : option Facade :=
  if bool_decide (background s !! i = Some b) then
    Some (settleBackground b live
            (mkFacade (cache s) (delete i (background s)) (effects s)))
  else None.

(** ** The push notification handler of the inbox page *)

Context {GmailNotification : Type}.

Inductive CachePart := EmailLists | MailboxList.

#[global] Instance CachePart_eq_dec : EqDecision CachePart.
Proof. solve_decision. Defined.

(** State of a promise. *)
Inductive PromiseState := Running | Fulfilled | Failed.

(** One run of [handleGmailNotification], suspended at
    [await Promise.all([...])]: the promises of the two invalidations. *)
Record PushRun := mkPushRun {
  listsPromise : PromiseState;       (* [invalidateAllEmailListsForMailbox()] *)
  mailboxesPromise : PromiseState    (* [invalidateMailboxes()] *)
}.

(** What the handler does, tagged with the run that did it. The console
    messages are left out. *)
Inductive PushEffect :=
| Invalidated (run : nat) (part : CachePart)
    (* the invalidation has completed on the store *)
| InvalidateQueries (run : nat) (queryKey : string).
    (* [queryClient.invalidateQueries({ queryKey: [queryKey] })] *)

Record Inbox := mkInbox {
  store : Cache;
  runs : list PushRun;
  pushLog : list PushEffect     (* oldest first *)
}.

Inductive PushEvent :=
| Notify (notification : GmailNotification)
| ListsSettled (k : nat) (ok : bool)
| MailboxesSettled (k : nat) (ok : bool).

(** The code after the [await]: it runs when both promises are fulfilled. *)
Definition afterInvalidation (k : nat) (r : PushRun) (log : list PushEffect)
    : list PushEffect :=
  match listsPromise r, mailboxesPromise r with
  | Fulfilled, Fulfilled =>
      log ++ [InvalidateQueries k "emails";
              InvalidateQueries k "mailboxes";
              InvalidateQueries k "kanban-emails"]
  | _, _ => log
  end.

Definition settle (ok : bool) : PromiseState := if ok then Fulfilled else Failed.

Definition pushStep (ev : PushEvent) (s : Inbox) : option Inbox :=
  match ev with
  | Notify _ =>
      Some (mkInbox (store s) (runs s ++ [mkPushRun Running Running]) (pushLog s))
  | ListsSettled k ok =>
      match runs s !! k with
      | Some (mkPushRun Running m) =>
          let r := mkPushRun (settle ok) m in
          let st := if ok then invalidateAllEmailListsForMailbox (store s)
                    else store s in
          let log := if ok then pushLog s ++ [Invalidated k EmailLists]
                     else pushLog s in
          Some (mkInbox st (<[k := r]> (runs s)) (afterInvalidation k r log))
      | _ => None
      end
  | MailboxesSettled k ok =>
      match runs s !! k with
      | Some (mkPushRun l Running) =>
          let r := mkPushRun l (settle ok) in
          let st := if ok then invalidateMailboxes (store s) else store s in
          let log := if ok then pushLog s ++ [Invalidated k MailboxList]
                     else pushLog s in
          Some (mkInbox st (<[k := r]> (runs s)) (afterInvalidation k r log))
      | _ => None
      end
  end.

Fixpoint pushRun (evs : list PushEvent) (s : Inbox) : option Inbox :=
  match evs with
  | [] => Some s
  | ev :: evs' =>
      match pushStep ev s with
      | Some s' => pushRun evs' s'
      | None => None
      end
  end.

(** ** Order of the effects of the push handler *)

Definition promiseOf (part : CachePart) (r : PushRun) : PromiseState :=
  match part with
  | EmailLists => listsPromise r
  | MailboxList => mailboxesPromise r
  end.

(** Wherever a run tells the query cache to refetch, both of its
    invalidations are found earlier in the log and none later. *)
Definition cascadeOrdered (l : list PushEffect) : Prop :=
  forall older newer k key,
    l = older ++ InvalidateQueries k key :: newer ->
    Invalidated k EmailLists ∈ older /\
    Invalidated k MailboxList ∈ older /\
    forall part, Invalidated k part ∉ newer.

Definition pushInvariant (s : Inbox) : Prop :=
  cascadeOrdered (pushLog s) /\
  (forall k r part,
      runs s !! k = Some r -> promiseOf part r = Fulfilled ->
      Invalidated k part ∈ pushLog s) /\
  (forall k key,
      InvalidateQueries k key ∈ pushLog s ->
      runs s !! k = Some (mkPushRun Fulfilled Fulfilled)) /\
  (forall k key,
      runs s !! k = Some (mkPushRun Fulfilled Fulfilled) ->
      key ∈ ["emails"; "mailboxes"; "kanban-emails"] ->
      InvalidateQueries k key ∈ pushLog s).

End Facade.

(** ** Values for the examples *)

Definition exampleBuiltins : Builtins :=
  {| jwt_exp := fun t => if String.eqb t "expired.token" then Some 1700000000%Z
                         else None;
     JSON_stringify := fun u => "user:" +:+ _id u |}.

Definition exampleUser : StoredUser :=
  mkUser "u1" "ann@example.org" (Some "Ann") None None.

Definition exampleRequest (u : string) : RequestConfig :=
  mkConfig (Some u) (Some defaultHeaders) false true.

Definition example401 (u : string) : AxiosError :=
  mkError (exampleRequest u) (Some 401).

(** A tab that logged in with a token that has expired since. *)
Definition loggedIn : World :=
  persistLoginInfo (H := exampleBuiltins) exampleUser "expired.token"
    (boot (H := exampleBuiltins) true ∅ "/inbox" None).

(** The same tab after two requests came back unauthorized. *)
Definition refreshing : World :=
  enqueue (markRetry (exampleRequest "/api/emails/42"))
    (startRefresh (markRetry (exampleRequest "/api/mailboxes")) loggedIn).

(** A cache that holds a mailbox list and nothing else; payloads are
    plain strings. *)
Definition exampleCache : @Cache string string string string :=
  mkCache (Some ["INBOX"; "SENT"]) ∅ ∅.

(** ** Decidable equality of the states

    It lets the examples compare the states of concrete runs by
    evaluation. *)

#[global] Instance StoredUser_eq_dec : EqDecision StoredUser.
Proof. solve_decision. Defined.
#[global] Instance AuthBroadcastMessage_eq_dec : EqDecision AuthBroadcastMessage.
Proof. solve_decision. Defined.
#[global] Instance RequestConfig_eq_dec : EqDecision RequestConfig.
Proof. solve_decision. Defined.
#[global] Instance AxiosError_eq_dec : EqDecision AxiosError.
Proof. solve_decision. Defined.
#[global] Instance Effect_eq_dec : EqDecision Effect.
Proof. solve_decision. Defined.
#[global] Instance Frame_eq_dec : EqDecision Frame.
Proof. solve_decision. Defined.
#[global] Instance AuthModule_eq_dec : EqDecision AuthModule.
Proof. solve_decision. Defined.
#[global] Instance Window_eq_dec : EqDecision Window.
Proof. solve_decision. Defined.
#[global] Instance ClientModule_eq_dec : EqDecision ClientModule.
Proof. solve_decision. Defined.
#[global] Instance World_eq_dec : EqDecision World.
Proof. solve_decision. Defined.

(** * More of the code *)

From stdpp Require Import pretty.

(** ** lib/auth and context/AuthContext.tsx, continued *)

(** [JSON.parse(raw) as StoredUser]: nothing when parsing throws. *)
Class JsonParse := {
  JSON_parse : string -> option StoredUser
}.

(** The state of the AuthProvider component around the tab: its
    [bootstrapped] cell, the [mounted] flag of its effect, and how often
    the offline email cache was cleared ([clearAllEmailCache], of
    lib/db/emailCache). *)
Record Provider := mkProvider {
  tab : World;
  bootstrapped : bool;
  mounted : bool;
  emailCacheClears : nat
}.

Definition on_tab (f : World -> World) (p : Provider) : Provider :=
  mkProvider (f (tab p)) (bootstrapped p) (mounted p) (emailCacheClears p).
Definition setBootstrapped (v : bool) (p : Provider) : Provider :=
  mkProvider (tab p) v (mounted p) (emailCacheClears p).

(** The config of [apiClient.post('/api/auth/logout', { userId })]; the
    body is not among the modelled fields. *)
Definition logoutRequest : RequestConfig :=
  mkConfig (Some "/api/auth/logout") (Some {[ "Content-Type" := "application/json" ]})
    false true.

Section TabMore.

Context `{Builtins} `{JsonParse}.

Definition getStoredUser (w : World) : option StoredUser :=
  match localStorage (window w) !! "user" with
  | None => None
  | Some raw => if Js.truthy raw then JSON_parse raw else None
  end.

Definition syncUserFromStorage (w : World) : World :=
  setUserState (getStoredUser w) w.

(** [handleStorage]: the [key] of the storage event; [None] stands for
    a null key and the empty key is falsy as well. *)
Definition handleStorage (key : option string) (w : World) : World :=
  match key with
  | None => w
  | Some k =>
      if negb (Js.truthy k) then w
      else if String.eqb k "user" then syncUserFromStorage w
      else w
  end.

(** [attemptRefresh], up to its return or its await of [rotateTokens()]. *)
Definition attemptRefresh (p : Provider) : Provider * Progress unit unit :=
  match getStoredUser (tab p) with
  | None => (setBootstrapped true p, Returned ())
  | Some _ => (on_tab (apiClient refreshRequest) p, Suspended ())
  end.

(** The rest of [attemptRefresh]: the new access token, or the error
    [rotateTokens()] threw. The warning on the console is left out. *)
Definition attemptRefresh_resume (r : string + AxiosError) (p : Provider)
    : Provider :=
  match r with
  | inl accessToken =>
      let p := on_tab (setAccessToken (Some accessToken)) p in
      if mounted p then setBootstrapped true p else p
  | inr _ =>
      let p := on_tab clearAllAuth p in
      let p := on_tab (setUserState None) p in
      if mounted p then setBootstrapped true p else p
  end.

(** The [finally] block of [logout]; a failure of [clearAllEmailCache]
    is swallowed by its [catch]. *)
Definition logout_finally (p : Provider) : Provider :=
  let p := on_tab clearAllAuth p in
  let p := on_tab (setUserState None) p in
  let p := on_tab (setStoredUser None) p in
  let p := on_tab (emit QueryClientClear) p in
  mkProvider (tab p) (bootstrapped p) (mounted p) (S (emailCacheClears p)).

(** [logout], up to its end or its await of [logoutUser(user._id)]. *)
Definition logout (p : Provider) : Provider * Progress unit unit :=
  match userState (tab p) with
  | Some _ => (on_tab (apiClient logoutRequest) p, Suspended ())
  | None => (logout_finally p, Returned ())
  end.

(** The rest of [logout] once [logoutUser] settled, with what it
    settled with: the [catch] ignores an error. *)
Definition logout_resume (r : unit + AxiosError) (p : Provider) : Provider :=
  match r with
  | inl _ => logout_finally p
  | inr _ => logout_finally p
  end.

(** [logout] from its call to its end, with what [logoutUser] settles
    with in case it is called. *)
Definition logout_run (r : unit + AxiosError) (p : Provider) : Provider :=
  match logout p with
  | (p', Suspended _) => logout_resume r p'
  | (p', Returned _) => p'
  end.

(** [attemptRefresh] from its call to its end, with what [rotateTokens]
    settles with in case it is called. *)
Definition attemptRefresh_run (r : string + AxiosError) (p : Provider)
    : Provider :=
  match attemptRefresh p with
  | (p', Suspended _) => attemptRefresh_resume r p'
  | (p', Returned _) => p'
  end.

(** Messages posted by one tab arrive at another tab in the order they
    were sent. *)
Definition deliver (ms : list AuthBroadcastMessage) (w : World) : World :=
  fold_left (fun w m => handleAuthBroadcast m w) ms w.

(** ** Invariants of the tab, continued *)

(** Two worlds agree on what the token holder and its timers see. *)
Definition sameCore (w0 w : World) : Prop :=
  auth w0 = auth w /\
  timers (window w0) = timers (window w) /\
  nextTimer (window w0) = nextTimer (window w) /\
  hasBroadcastChannel (window w0) = hasBroadcastChannel (window w).

(** Every request the log shows as resubmitted is marked as retried and
    carries a bearer header. *)
Definition logMarked (l : list Effect) : Prop :=
  forall o s, Retry o s ∈ l ->
    _retry s = true /\ exists t, authorization s = Some (bearer t).

(** Whatever the interceptor keeps to resubmit is marked as retried, and
    so is what it has resubmitted. *)
Definition retriesMarked (w : World) : Prop :=
  Forall (fun c => _retry c = true) (pendingRequests (client w)) /\
  Forall (fun fr => _retry (original fr) = true) (awaiting (client w)) /\
  logMarked (log w).

(** The armed timers are at most the expiry watcher the module holds. *)
Definition timersOwned (w : World) : Prop :=
  timers (window w) = [] \/
  exists id, timers (window w) = [id] /\ accessExpiryTimer (auth w) = Some id.

(** One watcher is armed, and it is the one the module holds, when the
    token in memory has an expiry that can be read and is not zero; no
    timer is armed otherwise. *)
Definition watcherMatchesToken (w : World) : Prop :=
  match decodeJwtExp (accessTokenMemory (auth w)) with
  | Some ms =>
      if Js.truthyZ ms then
        exists id, timers (window w) = [id] /\
                   accessExpiryTimer (auth w) = Some id
      else timers (window w) = []
  | None => timers (window w) = []
  end.

End TabMore.

(** ** The facade, continued: mutations *)

Section FacadeMore.

Context {Mailbox EmailItem Meta EmailDetail : Type}.
Context {SendEmailResponse ReplyEmailResponse ModifyEmailResponse : Type}.

(** Modelled from the spec: [invalidateEmail(id)] of the Cache Manager
    (lib/db/emailCache is not among the sources); it deletes the detail
    entry of that email. *)
Definition invalidateEmail (emailId : string)
    (c : @Cache Mailbox EmailItem Meta EmailDetail)
    : @Cache Mailbox EmailItem Meta EmailDetail :=
  mkCache (mailboxList c) (emailLists c) (delete emailId (emailDetails c)).

(** [ModifyEmailData]: the facade reads [delete] only; the other fields
    go to the server. *)
Record ModifyEmailData := mkModifyEmailData {
  md_delete : option bool
}.

(** Truthiness of an optional boolean field. *)
Definition truthyFlag (b : option bool) : bool := default false b.

(** The mutations await the live call first; each function here is the
    code behind that await, given what the call settled with. The
    invalidations are awaited one after the other. *)

Definition sendEmailWithCacheInvalidation (live : string + SendEmailResponse)
    (c : @Cache Mailbox EmailItem Meta EmailDetail)
    : @Cache Mailbox EmailItem Meta EmailDetail * Settled SendEmailResponse :=
  match live with
  | inr response => (invalidateAllEmailListsForMailbox c, Resolved response)
  | inl message => (c, Thrown message)
  end.

Definition replyEmailWithCacheInvalidation (emailId : string)
    (live : string + ReplyEmailResponse)
    (c : @Cache Mailbox EmailItem Meta EmailDetail)
    : @Cache Mailbox EmailItem Meta EmailDetail * Settled ReplyEmailResponse :=
  match live with
  | inr response =>
      let c := invalidateEmail emailId c in
      let c := invalidateAllEmailListsForMailbox c in
      (c, Resolved response)
  | inl message => (c, Thrown message)
  end.

Definition forwardEmailWithCacheInvalidation (emailId : string)
    (live : string + SendEmailResponse)
    (c : @Cache Mailbox EmailItem Meta EmailDetail)
    : @Cache Mailbox EmailItem Meta EmailDetail * Settled SendEmailResponse :=
  match live with
  | inr response => (invalidateAllEmailListsForMailbox c, Resolved response)
  | inl message => (c, Thrown message)
  end.

Definition modifyEmailWithCacheInvalidation (emailId : string)
    (data : ModifyEmailData) (live : string + ModifyEmailResponse)
    (c : @Cache Mailbox EmailItem Meta EmailDetail)
    : @Cache Mailbox EmailItem Meta EmailDetail * Settled ModifyEmailResponse :=
  match live with
  | inr response =>
      let c := invalidateEmail emailId c in
      let c :=
        if truthyFlag (md_delete data) then
          invalidateMailboxes (invalidateAllEmailListsForMailbox c)
        else
          invalidateMailboxes (invalidateAllEmailListsForMailbox c) in
      (c, Resolved response)
  | inl message => (c, Thrown message)
  end.

End FacadeMore.

(** ** hooks/email/useEmailSelection.ts *)

Section Selection.

(** An email of the list; the hook reads its [id] only. *)
Context {EmailListItem : Type} (id : EmailListItem -> string).

(** [prev.includes(emailId) ? prev.filter(id => id !== emailId)
                            : [...prev, emailId]] *)
Definition handleToggleSelect (emailId : string) (prev : list string)
    : list string :=
  if bool_decide (emailId ∈ prev) then filter (fun i => i <> emailId) prev
  else prev ++ [emailId].

(** [handleSelectAll]: nothing happens on an empty list; otherwise the
    lengths decide. *)
Definition handleSelectAll (emails : list EmailListItem) (prev : list string)
    : list string :=
  match emails with
  | [] => prev
  | _ => if Nat.eqb (length prev) (length emails) then [] else map id emails
  end.

(** [emails.findIndex((e) => e.id === selectedEmailId)]: a position, or
    nothing for [-1]; no id equals [null]. *)
Definition findSelected (emails : list EmailListItem)
    (selectedEmailId : option string) : option nat :=
  match selectedEmailId with
  | None => None
  | Some s => fst <$> list_find (fun e => id e = s) emails
  end.

(** [x || y] on optional strings: the empty string is falsy. *)
Definition orElse (x y : option string) : option string :=
  match x with
  | Some s => if Js.truthy s then Some s else y
  | None => y
  end.

(** The effect that keeps the selection on an email of the list; its
    result is the next [selectedEmailId]. *)
Definition autoSelect (emails : list EmailListItem)
    (selectedEmailId : option string) : option string :=
  match emails with
  | [] => None
  | _ =>
      match findSelected emails selectedEmailId with
      | Some _ => selectedEmailId
      | None =>
          let nextEmail :=
            emails !! Z.to_nat (Z.min 0 (Z.of_nat (length emails) - 1)) in
          orElse (id <$> nextEmail) (orElse (id <$> emails !! 0) None)
      end
  end.

End Selection.

(** ** utils/kanbanUtils.ts and the auth utilities *)

(** A character of a string stands for one UTF-16 code unit, so that
    [String.length] is [.length]. *)

(** The first [n] characters. *)
Fixpoint takeString (n : nat) (s : string) : string :=
  match n, s with
  | S n', String a s' => String a (takeString n' s')
  | _, _ => EmptyString
  end.

(** [s.slice(0, e)] for an integer [e]: a negative end counts from the
    end of the string. *)
Definition slice0 (s : string) (e : Z) : string :=
  let len := Z.of_nat (String.length s) in
  let to := if (e <? 0)%Z then Z.max (len + e) 0 else Z.min e len in
  takeString (Z.to_nat to) s.

Definition truncateText (text : string) (maxLength : Z) : string :=
  if negb (Js.truthy text) || (Z.of_nat (String.length text) <=? maxLength)%Z
  then text
  else slice0 text maxLength +:+ "...".

(** [KanbanEmailItem]: the fields [getItemKey] reads. *)
Record KanbanEmailItem := mkKanbanEmailItem {
  messageId : string;
  item_status : string
}.

Definition getItemKey (item : KanbanEmailItem) : string :=
  messageId item +:+ "-" +:+ item_status item.

(** [EMAIL_STATUS] of the kanban constants. *)
Definition EMAIL_STATUS : list string :=
  ["INBOX"; "TODO"; "IN_PROGRESS"; "DONE"; "SNOOZED"].

Section Dates.

(** [date.toLocaleDateString('en-US', ...)], for a time in milliseconds;
    the second argument is the current time, which decides whether the
    year is shown in [formatSnoozeDate]. *)
Variable toLocaleDateString : Z -> Z -> string.

(** [getRelativeTime], on the times in milliseconds of [now] and of the
    date (a valid date). *)
Definition getRelativeTime (now date : Z) : string :=
  let diffMs := (now - date)%Z in
  let diffSec := (diffMs / 1000)%Z in
  let diffMin := (diffSec / 60)%Z in
  let diffHour := (diffMin / 60)%Z in
  let diffDay := (diffHour / 24)%Z in
  if (diffSec <? 60)%Z then "Just now"
  else if (diffMin <? 60)%Z then pretty diffMin +:+ "m ago"
  else if (diffHour <? 24)%Z then pretty diffHour +:+ "h ago"
  else if (diffDay <? 7)%Z then pretty diffDay +:+ "d ago"
  else toLocaleDateString date now.

(** [formatSnoozeDate], likewise. *)
Definition formatSnoozeDate (now date : Z) : string :=
  let diffDays := ((date - now) / (1000 * 60 * 60 * 24))%Z in
  if (diffDays =? 0)%Z then "Today"
  else if (diffDays =? 1)%Z then "Tomorrow"
  else if (1 <? diffDays)%Z && (diffDays <? 7)%Z
       then "In " +:+ pretty diffDays +:+ " days"
  else toLocaleDateString date now.

End Dates.

(** [TOKEN_EXPIRY_BUFFER] of constants.auth.ts, in seconds. *)
Definition TOKEN_EXPIRY_BUFFER : Z := 300.

(** [!expiryTimestamp]: [null] and zero are falsy. *)
Definition noExpiry (expiryTimestamp : option Z) : bool :=
  match expiryTimestamp with
  | None => true
  | Some t => negb (Js.truthyZ t)
  end.

(** [isTokenExpired]; [dateNow] is [Date.now()], in milliseconds. *)
Definition isTokenExpired (dateNow : Z) (expiryTimestamp : option Z) : bool :=
  if noExpiry expiryTimestamp then true
  else
    let now := (dateNow / 1000)%Z in
    (default 0 expiryTimestamp - TOKEN_EXPIRY_BUFFER <=? now)%Z.

(** [getTimeUntilExpiry] *)
Definition getTimeUntilExpiry (dateNow : Z) (expiryTimestamp : option Z) : Z :=
  if noExpiry expiryTimestamp then 0%Z
  else
    let now := (dateNow / 1000)%Z in
    let remaining := (default 0 expiryTimestamp - now)%Z in
    Z.max 0 (remaining * 1000).

(** The result of [validatePassword]. *)
Record PasswordCheck := mkPasswordCheck {
  isValid : bool;
  error : option string
}.

Definition validatePassword (password : string) : PasswordCheck :=
  if (String.length password <? 6)%nat then
    mkPasswordCheck false (Some "Password must be at least 6 characters")
  else if (100 <? String.length password)%nat then
    mkPasswordCheck false (Some "Password must be less than 100 characters")
  else mkPasswordCheck true None.

(** [getUserDisplayName] *)
Definition getUserDisplayName (user : option StoredUser) : string :=
  match user with
  | None => "Guest"
  | Some u =>
      default "User"
        (orElse (name u) (orElse (Some (email u)) (Some "User")))
  end.

(** A parser for the examples: it reads back what [exampleBuiltins]
    writes for [exampleUser]. *)
Definition exampleParse : JsonParse :=
  {| JSON_parse := fun s => if String.eqb s "user:u1" then Some exampleUser
                            else None |}.

(** A tab in a browser without [BroadcastChannel], after a login. *)
Definition noChannelTab : World :=
  persistLoginInfo (H := exampleBuiltins) exampleUser "expired.token"
    (boot (H := exampleBuiltins) false ∅ "/inbox" None).

(** The logged-in tab after a request came back unauthorized and the
    refresh answered with a new token. *)
Definition refreshedTab : World :=
  refreshFulfilled (H := exampleBuiltins)
    (mkFrame (markRetry (exampleRequest "/api/mailboxes"))
       (requestInterceptor loggedIn refreshRequest))
    "fresh.token"
    (dropFrame 0 (startRefresh (markRetry (exampleRequest "/api/mailboxes"))
                    loggedIn)).

(** * Facts *)

(** ** JavaScript strings *)

Lemma append_nil (s : string) : "" +:+ s = s.
Proof. reflexivity. Qed.

Lemma append_cons (a : Ascii.ascii) (s t : string) :
  String a s +:+ t = String a (s +:+ t).
Proof. reflexivity. Qed.

Lemma startsWith_spec (s p : string) :
  Js.startsWith s p = true <-> exists post, s = p +:+ post.
Proof.
  revert s. induction p as [|a p IH]; intros s; simpl.
  - split; [intros _; by exists s | done].
  - destruct s as [|b s].
    + split; [done | intros [post H]; discriminate H].
    + destruct (Ascii.eqb_spec a b) as [->|Hne].
      * rewrite IH. split; intros [post H]; exists post.
        -- by rewrite append_cons, H.
        -- rewrite append_cons in H. by injection H.
      * split; [done |].
        intros [post H]. rewrite append_cons in H. injection H. congruence.
Qed.

Lemma includes_spec (s sub : string) :
  Js.includes s sub = true <-> exists pre post, s = pre +:+ sub +:+ post.
Proof.
  induction s as [|a s IH]; simpl.
  - rewrite orb_false_r, startsWith_spec. split.
    + intros [post H]. by exists "", post.
    + intros [pre [post H]]. destruct pre; [by exists post | discriminate H].
  - rewrite orb_true_iff, startsWith_spec, IH. split.
    + intros [[post H] | [pre [post H]]].
      * by exists "", post.
      * exists (String a pre), post. by rewrite append_cons, H.
    + intros [pre [post H]]. destruct pre as [|b pre].
      * left. by exists post.
      * right. exists pre, post. rewrite append_cons in H. by injection H.
Qed.

Lemma append_assoc (a b c : string) : (a +:+ b) +:+ c = a +:+ (b +:+ c).
Proof.
  induction a as [|x a IH]; [reflexivity |].
  by rewrite !append_cons, IH.
Qed.

(** The three endpoints of lib/api/auth.api.ts are auth endpoints. *)
Lemma isAuthEndpoint_contains (u pre post part : string) :
  part ∈ ["/api/auth/refresh"; "/api/auth/logout"; "/api/auth/google/login"] ->
  u = pre +:+ part +:+ post ->
  isAuthEndpoint u = true.
Proof.
  intros Hin ->. unfold isAuthEndpoint.
  rewrite !orb_true_iff, !includes_spec.
  apply list_elem_of_In in Hin. simpl in Hin.
  destruct Hin as [<- | [<- | [<- | []]]].
  - left; left. by exists pre, post.
  - left; right. by exists pre, post.
  - right. exists pre, ("/login" +:+ post).
    change "/api/auth/google/login" with ("/api/auth/google" +:+ "/login").
    by rewrite append_assoc.
Qed.

(** ** The tab *)

Section TabFacts.

Context `{Builtins}.

Lemma clearLocalAuth_auth (w : World) :
  accessTokenMemory (auth (clearLocalAuth w)) = None /\
  accessExpiryTimer (auth (clearLocalAuth w)) = None /\
  authChannel (auth (clearLocalAuth w)) = authChannel (auth w).
Proof.
  unfold clearLocalAuth, clearTimer. simpl.
  destruct (accessExpiryTimer (auth w)) as [[|n]|]; simpl; done.
Qed.

Lemma clearLocalAuth_frame (w : World) :
  log (clearLocalAuth w) = log w /\
  client (clearLocalAuth w) = client w /\
  userState (clearLocalAuth w) = userState w /\
  pathname (window (clearLocalAuth w)) = pathname (window w) /\
  localStorage (window (clearLocalAuth w)) = delete "user" (localStorage (window w)).
Proof.
  unfold clearLocalAuth, clearTimer. simpl.
  destruct (accessExpiryTimer (auth w)) as [[|n]|]; simpl; done.
Qed.

Lemma clearLocalAuth_timer (w : World) (id : nat) :
  accessExpiryTimer (auth w) = Some id -> id <> 0 ->
  id ∉ timers (window (clearLocalAuth w)).
Proof.
  intros Ht Hid. unfold clearLocalAuth, clearTimer. simpl. rewrite Ht.
  destruct id as [|n]; [done |]. simpl.
  rewrite list_elem_of_filter. tauto.
Qed.

Lemma setAccessToken_frame (token : option string) (w : World) :
  accessTokenMemory (auth (setAccessToken token w)) = token /\
  authChannel (auth (setAccessToken token w)) = authChannel (auth w) /\
  localStorage (window (setAccessToken token w)) = localStorage (window w) /\
  pathname (window (setAccessToken token w)) = pathname (window w) /\
  hasBroadcastChannel (window (setAccessToken token w))
    = hasBroadcastChannel (window w) /\
  client (setAccessToken token w) = client w /\
  userState (setAccessToken token w) = userState w /\
  log (setAccessToken token w) = log w.
Proof.
  unfold setAccessToken, scheduleAccessExpiryWatcher, clearTimer. simpl.
  destruct (accessExpiryTimer (auth w)) as [[|n]|]; simpl;
    destruct (decodeJwtExp token) as [ms|]; simpl;
    try destruct (Js.truthyZ ms); simpl; done.
Qed.

(** C8. A [logout] message of another tab: the in-memory token, the
    stored user and the expiry watcher are cleared, the user state is
    reset, and nothing is posted to the other tabs; the only effect is
    clearing the query cache. *)
Theorem logout_broadcast_is_not_echoed (w : World) :
  let w' := handleAuthBroadcast Logout w in
  step (AuthBroadcast Logout) w = Some w' /\
  log w' = log w ++ [QueryClientClear] /\
  posted (log w') = posted (log w) /\
  accessTokenMemory (auth w') = None /\
  localStorage (window w') !! "user" = None /\
  accessExpiryTimer (auth w') = None /\
  (forall n, accessExpiryTimer (auth w) = Some (S n) ->
             S n ∉ timers (window w')) /\
  userState w' = None.
Proof.
  cbn -[clearLocalAuth].
  destruct (clearLocalAuth_auth w) as (Ht & Hx & _).
  destruct (clearLocalAuth_frame w) as (Hl & _ & _ & _ & Hs).
  repeat split; try done.
  - by rewrite Hl.
  - rewrite Hl. unfold posted. rewrite omap_app. simpl. by rewrite app_nil_r.
  - rewrite Hs. apply lookup_delete_eq.
  - intros n Hn. by apply (clearLocalAuth_timer w (S n)).
Qed.

(** C10. A [login] message of another tab: the user state and the
    in-memory token (with its expiry watcher) are set; [localStorage],
    and with it the key [user], is what it was, and so are the location,
    the channel, the refresh state and the log. *)
Theorem login_broadcast_leaves_storage (user : StoredUser) (accessToken : string)
    (w : World) :
  let w' := handleAuthBroadcast (Login user accessToken) w in
  step (AuthBroadcast (Login user accessToken)) w = Some w' /\
  localStorage (window w') = localStorage (window w) /\
  localStorage (window w') !! "user" = localStorage (window w) !! "user" /\
  userState w' = Some user /\
  accessTokenMemory (auth w') = Some accessToken /\
  authChannel (auth w') = authChannel (auth w) /\
  pathname (window w') = pathname (window w) /\
  client w' = client w /\
  log w' = log w.
Proof.
  cbn -[setAccessToken].
  destruct (setAccessToken_frame (Some accessToken) (setUserState (Some user) w))
    as (Ht & Hc & Hs & Hp & _ & Hcl & Hu & Hl).
  repeat split; try done. by rewrite Hs.
Qed.

Lemma onResponseError_propagates (e : AxiosError) (w : World) :
  (exists u pre post part,
      url (config e) = Some u /\
      part ∈ ["/api/auth/refresh"; "/api/auth/logout"; "/api/auth/google/login"] /\
      u = pre +:+ part +:+ post)
  \/ _retry (config e) = true ->
  onResponseError e w = (w, Rejected e).
Proof.
  intros Hcase. unfold onResponseError.
  destruct Hcase as [(u & pre & post & part & Hu & Hin & Heq) | Hretry].
  - rewrite Hu. simpl.
    rewrite (isAuthEndpoint_contains u pre post part Hin Heq).
    by rewrite andb_false_r.
  - rewrite Hretry. simpl. by rewrite andb_false_r.
Qed.

(** C6. An error whose request goes to an auth endpoint (the url contains
    the refresh, logout or Google login path), or whose request was
    already retried, is handed back as it is: the handler rejects with
    the same error and leaves the state alone, so no refresh call is
    issued and nothing is queued. *)
Theorem auth_endpoint_or_retried_is_propagated (e : AxiosError) (w : World) :
  (exists u pre post part,
      url (config e) = Some u /\
      part ∈ ["/api/auth/refresh"; "/api/auth/logout"; "/api/auth/google/login"] /\
      u = pre +:+ part +:+ post)
  \/ _retry (config e) = true ->
  onResponseError e w = (w, Rejected e) /\
  step (ResponseError e) w = Some (emit (Reject (config e) e) w) /\
  (forall w', step (ResponseError e) w = Some w' ->
     refreshInFlight w' = refreshInFlight w /\
     client w' = client w /\
     auth w' = auth w /\
     log w' = log w ++ [Reject (config e) e]).
Proof.
  intros Hcase.
  pose proof (onResponseError_propagates e w Hcase) as Hrej.
  split; [done |].
  assert (Hstep : step (ResponseError e) w = Some (emit (Reject (config e) e) w)).
  { simpl. by rewrite Hrej. }
  split; [done |].
  intros w' Hw'. rewrite Hstep in Hw'. injection Hw' as <-. done.
Qed.

(** *** Frame lemmas *)

Lemma requestInterceptor_auth (w w' : World) (c : RequestConfig) :
  auth w' = auth w -> requestInterceptor w' c = requestInterceptor w c.
Proof. unfold requestInterceptor, getAccessToken. by intros ->. Qed.

Lemma authorization_set (v : string) (c : RequestConfig) :
  authorization (setAuthorization v c) = Some v.
Proof. unfold authorization, setAuthorization. simpl. apply lookup_insert_eq. Qed.

Lemma requestInterceptor_shape (w : World) (c : RequestConfig) :
  url (requestInterceptor w c) = url c /\
  _retry (requestInterceptor w c) = _retry c /\
  withCredentials (requestInterceptor w c) = withCredentials c.
Proof.
  unfold requestInterceptor.
  destruct (getAccessToken w) as [t|]; [destruct (Js.truthy t) |]; done.
Qed.

(** With the token [t] in memory a resubmission for [t] carries it. *)
Lemma resubmitted_authorization (w : World) (t : string) (c : RequestConfig) :
  accessTokenMemory (auth w) = Some t ->
  authorization (requestInterceptor w (setAuthorization (bearer t) c))
    = Some (bearer t).
Proof.
  intros Ht. unfold requestInterceptor, getAccessToken. rewrite Ht.
  destruct (Js.truthy t); by rewrite !authorization_set.
Qed.

Lemma resubmit_all (token : string) (l : list RequestConfig) (w : World) :
  fold_left (fun w cb => resubmit token cb w) l w
  = mkWorld (auth w) (window w) (client w) (userState w)
      (log w ++ map (fun cb => Retry cb (requestInterceptor w
                                  (setAuthorization (bearer token) cb))) l).
Proof.
  revert w. induction l as [|c l IH]; intros w; simpl.
  - rewrite app_nil_r. by destruct w.
  - rewrite IH. unfold resubmit. simpl.
    rewrite <- app_assoc. reflexivity.
Qed.

Lemma onRefreshed_eq (token : string) (w : World) :
  onRefreshed token w
  = mkWorld (auth w) (window w) (set_pendingRequests [] (client w)) (userState w)
      (log w ++ map (fun cb => Retry cb (requestInterceptor w
                                  (setAuthorization (bearer token) cb)))
                 (pendingRequests (client w))).
Proof. unfold onRefreshed. by rewrite resubmit_all. Qed.

Lemma clearAllAuth_frame (w : World) :
  accessTokenMemory (auth (clearAllAuth w)) = None /\
  accessExpiryTimer (auth (clearAllAuth w)) = None /\
  client (clearAllAuth w) = client w /\
  pathname (window (clearAllAuth w)) = pathname (window w) /\
  nextTimer (window (clearAllAuth w)) = nextTimer (window w) /\
  localStorage (window (clearAllAuth w)) = delete "user" (localStorage (window w)) /\
  log (clearAllAuth w)
    = log w ++ (if authChannel (auth w) then [PostMessage Logout] else []).
Proof.
  unfold clearAllAuth, broadcastAuthChange, clearLocalAuth, clearTimer. simpl.
  destruct (accessExpiryTimer (auth w)) as [[|n]|]; simpl;
    destruct (authChannel (auth w)); simpl; rewrite ?app_nil_r; done.
Qed.

Lemma setAccessToken_timer (token : option string) (w : World) :
  accessExpiryTimer (auth w) <> Some 0 -> nextTimer (window w) <> 0 ->
  accessExpiryTimer (auth (setAccessToken token w)) <> Some 0 /\
  nextTimer (window (setAccessToken token w)) <> 0.
Proof.
  destruct w as [[tok tmr ch] win cl u lg]. simpl. intros Ht Hn.
  unfold setAccessToken, scheduleAccessExpiryWatcher, clearTimer. simpl.
  destruct tmr as [[|n]|]; simpl;
    destruct (decodeJwtExp token) as [ms|]; simpl;
    try destruct (Js.truthyZ ms); simpl; try done.
  all: split; [intros [= ?]; done | lia].
Qed.

(** *** The rejected-response handler, case by case *)

Lemma unauthorized_test (e : AxiosError) :
  unauthorized e ->
  is401 (status e) && negb (_retry (config e))
    && negb (isAuthEndpoint (default "" (url (config e)))) = true.
Proof. intros (-> & -> & ->). reflexivity. Qed.

Lemma onResponseError_queued (e : AxiosError) (w : World) :
  unauthorized e -> isRefreshing (client w) = true ->
  onResponseError e w = (enqueue (markRetry (config e)) w, Queued).
Proof.
  intros Hu Hr. unfold onResponseError.
  by rewrite (unauthorized_test e Hu), Hr.
Qed.

Lemma onResponseError_refreshing (e : AxiosError) (w : World) :
  unauthorized e -> isRefreshing (client w) = false ->
  onResponseError e w = (startRefresh (markRetry (config e)) w, Refreshing).
Proof.
  intros Hu Hr. unfold onResponseError.
  by rewrite (unauthorized_test e Hu), Hr.
Qed.

Lemma onResponseError_cases (e : AxiosError) (w : World) :
  onResponseError e w = (w, Rejected e) \/
  onResponseError e w = (enqueue (markRetry (config e)) w, Queued)
    /\ isRefreshing (client w) = true \/
  onResponseError e w = (startRefresh (markRetry (config e)) w, Refreshing)
    /\ isRefreshing (client w) = false.
Proof.
  unfold onResponseError.
  destruct (is401 (status e) && negb (_retry (config e))
            && negb (isAuthEndpoint (default "" (url (config e)))));
    [| by left].
  destruct (isRefreshing (client w)); [right; left | right; right]; done.
Qed.

Lemma refreshCall_rejected (fr : Frame) (st : option nat) (w : World) :
  url (refreshCall fr) = Some "/api/auth/refresh" ->
  onResponseError (mkError (refreshCall fr) st) w
  = (w, Rejected (mkError (refreshCall fr) st)).
Proof.
  intros Hu.
  apply (onResponseError_propagates (mkError (refreshCall fr) st) w).
  left. exists "/api/auth/refresh", "", "", "/api/auth/refresh".
  repeat split; [done | set_solver].
Qed.

(** *** The invariant *)

Lemma boot_singleFlight bc storage path user :
  singleFlight (boot bc storage path user).
Proof.
  unfold boot, initAuthWatchers, initBroadcastChannel, singleFlight.
  destruct bc; simpl; repeat split; done.
Qed.

Lemma singleFlight_frame (w w' : World) :
  singleFlight w ->
  client w' = client w ->
  accessExpiryTimer (auth w') <> Some 0 ->
  nextTimer (window w') <> 0 ->
  singleFlight w'.
Proof.
  unfold singleFlight. intros (Hl & Hf & _ & _) Hc Ht Hn. rewrite Hc. done.
Qed.

Lemma singleFlight_await (w : World) (k : nat) (fr : Frame) :
  singleFlight w -> awaiting (client w) !! k = Some fr ->
  k = 0 /\ awaiting (client w) = [fr] /\ isRefreshing (client w) = true /\
  url (refreshCall fr) = Some "/api/auth/refresh".
Proof.
  intros (Hl & Hf & _ & _) Hk.
  destruct (awaiting (client w)) as [|fr0 [|fr1 l]] eqn:Ha.
  - done.
  - destruct k as [|k]; [| done]. injection Hk as ->.
    destruct (isRefreshing (client w)); [| done].
    repeat split; try done. by inversion Hf.
  - simpl in Hl. destruct (isRefreshing (client w)); done.
Qed.

(** The request a resubmission for [token] puts on the network while
    [token] is the token in memory. *)
Lemma refreshFulfilled_eq (fr : Frame) (token : string) (w : World) :
  let w1 := setAccessToken (Some token) w in
  refreshFulfilled fr token w
  = mkWorld (auth w1) (window w1)
      (mkClient false [] (awaiting (client w))) (userState w)
      (log w ++ map (fun c => Retry c (requestInterceptor w1
                                 (setAuthorization (bearer token) c)))
                 (pendingRequests (client w) ++ [original fr])).
Proof.
  intros w1. unfold refreshFulfilled. fold w1. rewrite onRefreshed_eq.
  destruct (setAccessToken_frame (Some token) w)
    as (_ & _ & _ & _ & _ & Hc & Hu & Hl).
  fold w1 in Hc, Hu, Hl.
  unfold resubmit, emit, on_client. cbn -[setAccessToken w1].
  rewrite Hc, Hu, Hl, map_app, <- app_assoc. reflexivity.
Qed.

Lemma refreshRejected_eq (fr : Frame) (e : AxiosError) (w : World) :
  let w1 := clearAllAuth w in
  refreshRejected fr e w
  = mkWorld (auth w1) (window w1)
      (mkClient false (pendingRequests (client w)) (awaiting (client w)))
      (userState w1)
      (log w
         ++ (if authChannel (auth w) then [PostMessage Logout] else [])
         ++ (if String.eqb (pathname (window w)) "/login" then []
             else [LocationAssign "/login"])
         ++ [Reject (original fr) e]).
Proof.
  intros w1. unfold refreshRejected. fold w1.
  destruct (clearAllAuth_frame w) as (_ & _ & Hc & Hp & _ & _ & Hl).
  fold w1 in Hc, Hp, Hl. rewrite Hp.
  destruct (String.eqb (pathname (window w)) "/login");
    unfold emit, on_client; cbn -[clearAllAuth w1];
    rewrite Hc, Hl, <- ?app_assoc; reflexivity.
Qed.

Lemma step_singleFlight (ev : Event) (w w' : World) :
  singleFlight w -> step ev w = Some w' -> singleFlight w'.
Proof.
  intros Hinv Hstep. pose proof Hinv as (Hl & Hf & Ht & Hn).
  destruct ev as [c | e | k r | m | user token]; simpl in Hstep.
  - injection Hstep as <-. by apply (singleFlight_frame w).
  - destruct (onResponseError_cases e w) as [E | [[E Hr] | [E Hr]]];
      rewrite E in Hstep; injection Hstep as <-.
    + by apply (singleFlight_frame w).
    + unfold singleFlight. simpl. by rewrite Hr in *.
    + unfold singleFlight. simpl. rewrite Hr in Hl.
      destruct (awaiting (client w)); [| done]. simpl.
      repeat split; try done.
      constructor; [| done]. simpl.
      apply (requestInterceptor_shape _ refreshRequest).
  - destruct (awaiting (client w) !! k) as [fr|] eqn:Hk; [| done].
    destruct (singleFlight_await w k fr Hinv Hk) as (-> & Ha & Hr & Hu).
    destruct r as [token | st].
    + injection Hstep as <-. rewrite refreshFulfilled_eq.
      destruct (setAccessToken_timer (Some token) (dropFrame 0 w)) as [Ht' Hn'];
        [done | done |].
      unfold singleFlight. cbn -[setAccessToken]. rewrite Ha. done.
    + rewrite (refreshCall_rejected fr st w Hu) in Hstep.
      injection Hstep as <-. rewrite refreshRejected_eq.
      destruct (clearAllAuth_frame (dropFrame 0 w)) as (_ & Hx & _ & _ & Hn' & _).
      unfold singleFlight. cbn -[clearAllAuth]. rewrite Ha, Hx, Hn'. done.
  - injection Hstep as <-. destruct m as [| user token].
    + cbn -[clearLocalAuth].
      destruct (clearLocalAuth_auth w) as (_ & Hx & _).
      destruct (clearLocalAuth_frame w) as (_ & Hc & _).
      apply (singleFlight_frame w); cbn -[clearLocalAuth];
        [done | done | by rewrite Hx |].
      unfold clearLocalAuth, clearTimer. simpl.
      by destruct (accessExpiryTimer (auth w)) as [[|n]|].
    + cbn -[setAccessToken].
      destruct (setAccessToken_timer (Some token) (setUserState (Some user) w))
        as [Ht' Hn']; [done | done |].
      destruct (setAccessToken_frame (Some token) (setUserState (Some user) w))
        as (_ & _ & _ & _ & _ & Hc & _).
      by apply (singleFlight_frame w).
  - injection Hstep as <-. unfold persistLoginInfo, broadcastAuthChange.
    set (w0 := setStoredUser (Some user) w).
    destruct (setAccessToken_timer (Some token) w0) as [Ht' Hn']; [done | done |].
    destruct (setAccessToken_frame (Some token) w0)
      as (_ & _ & _ & _ & _ & Hc & _).
    destruct (authChannel (auth (setAccessToken (Some token) w0)));
      by apply (singleFlight_frame w).
Qed.

Lemma run_singleFlight (evs : list Event) (w w' : World) :
  singleFlight w -> run evs w = Some w' -> singleFlight w'.
Proof.
  revert w. induction evs as [|ev evs IH]; intros w Hinv Hrun; simpl in Hrun.
  - by injection Hrun as <-.
  - destruct (step ev w) as [w1|] eqn:Hs; [| done].
    eapply IH; [| done]. by eapply step_singleFlight.
Qed.

Lemma reachable_singleFlight (w : World) : reachable w -> singleFlight w.
Proof.
  intros (bc & storage & path & user & evs & Hrun).
  eapply run_singleFlight; [apply boot_singleFlight | done].
Qed.

Lemma persistLoginInfo_frame (user : StoredUser) (token : string) (w : World) :
  client (persistLoginInfo user token w) = client w /\
  exists effs,
    log (persistLoginInfo user token w) = log w ++ effs /\
    sent effs = [] /\ retried effs = [].
Proof.
  unfold persistLoginInfo, broadcastAuthChange.
  assert (Hw0 : client (setStoredUser (Some user) w) = client w /\
                log (setStoredUser (Some user) w) = log w) by done.
  remember (setStoredUser (Some user) w) as w0 eqn:E. clear E.
  destruct Hw0 as [Hc0 Hl0].
  destruct (setAccessToken_frame (Some token) w0)
    as (_ & _ & _ & _ & _ & Hc & _ & Hl).
  destruct (authChannel (auth (setAccessToken (Some token) w0))).
  - split; [cbn -[setAccessToken]; by rewrite Hc |].
    exists [PostMessage (Login user token)].
    split; [cbn -[setAccessToken]; by rewrite Hl, Hl0 | done].
  - split; [by rewrite Hc |].
    exists []. split; [by rewrite Hl, Hl0, app_nil_r | done].
Qed.

(** One event while a refresh is unanswered. *)
Lemma refresh_window_step (ev : Event) (w : World) :
  isRefreshing (client w) = true ->
  isRefreshResponse ev = false ->
  exists w' effs,
    step ev w = Some w' /\
    client w' = mkClient true (pendingRequests (client w) ++ queuedBy [ev])
                  (awaiting (client w)) /\
    log w' = log w ++ effs /\
    length (sent effs) = length (called [ev]) /\
    retried effs = [].
Proof.
  intros Hr Hev.
  assert (Hsame : client w
                  = mkClient true (pendingRequests (client w) ++ [])
                      (awaiting (client w))).
  { rewrite app_nil_r. destruct (client w) as [r p q].
    simpl in Hr. by subst r. }
  destruct ev as [c | e | k r | m | user token]; try done.
  - exists (apiClient c w), [Send (requestInterceptor w c)].
    repeat split; try done.
  - cbn [step]. unfold onResponseError, queuedBy. simpl omap.
    destruct (is401 (status e) && negb (_retry (config e))
              && negb (isAuthEndpoint (default "" (url (config e))))).
    + rewrite Hr. eexists. exists []. split; [reflexivity |].
      repeat split; try done.
      * simpl. unfold set_pendingRequests. by rewrite Hr.
      * simpl. by rewrite app_nil_r.
    + eexists. exists [Reject (config e) e]. split; [reflexivity |].
      repeat split; try done.
  - destruct m as [| user token].
    + exists (handleAuthBroadcast Logout w), [QueryClientClear].
      destruct (clearLocalAuth_frame w) as (Hl & Hc & _).
      repeat split; try done; cbn -[clearLocalAuth].
      * by rewrite Hc.
      * by rewrite Hl.
    + exists (handleAuthBroadcast (Login user token) w), [].
      destruct (setAccessToken_frame (Some token) (setUserState (Some user) w))
        as (_ & _ & _ & _ & _ & Hc & _ & Hl).
      repeat split; try done; cbn -[setAccessToken].
      * by rewrite Hc.
      * by rewrite Hl, app_nil_r.
  - destruct (persistLoginInfo_frame user token w) as (Hc & effs & Hl & Hs & Hq).
    exists (persistLoginInfo user token w), effs.
    repeat split; try done.
    + by rewrite Hc.
    + by rewrite Hs.
Qed.

(** The same under any interleaving: whatever else happens in the tab
    while the refresh is unanswered (calls, failures of any kind,
    messages of other tabs, a login), the flag stays set, no further run
    suspends at a refresh call, the queue grows by exactly the
    unauthorized failures in the order of arrival, nothing is
    resubmitted, and the only requests sent are the calls of the
    application. *)
Lemma refresh_window (evs : list Event) (w : World) :
  isRefreshing (client w) = true ->
  forallb (fun ev => negb (isRefreshResponse ev)) evs = true ->
  exists w' effs,
    run evs w = Some w' /\
    client w' = mkClient true (pendingRequests (client w) ++ queuedBy evs)
                  (awaiting (client w)) /\
    log w' = log w ++ effs /\
    length (sent effs) = length (called evs) /\
    retried effs = [].
Proof.
  revert w. induction evs as [|ev evs IH]; intros w Hr Hno.
  - exists w, []. repeat split; try done.
    + simpl. rewrite app_nil_r.
      destruct (client w) as [r p q]. simpl in Hr. by subst r.
    + by rewrite app_nil_r.
  - simpl in Hno. apply andb_true_iff in Hno as [Hev Hno].
    apply negb_true_iff in Hev.
    destruct (refresh_window_step ev w Hr Hev)
      as (w1 & effs1 & Hs & Hc1 & Hl1 & Hn1 & Hq1).
    destruct (IH w1) as (w' & effs & Hrun & Hc' & Hl' & Hn' & Hq');
      [by rewrite Hc1 | done |].
    exists w', (effs1 ++ effs).
    change (ev :: evs) with ([ev] ++ evs).
    unfold queuedBy, called, sent, retried in *.
    rewrite !omap_app, !length_app.
    repeat split.
    + simpl. simpl in Hs. by rewrite Hs.
    + rewrite Hc', Hc1. simpl pendingRequests. simpl awaiting.
      by rewrite <- app_assoc.
    + by rewrite Hl', Hl1, <- app_assoc.
    + by rewrite Hn1, Hn'.
    + by rewrite Hq1, Hq'.
Qed.

Lemma queuedBy_elem (evs : list Event) (e : AxiosError) :
  ResponseError e ∈ evs -> unauthorized e ->
  markRetry (config e) ∈ queuedBy evs.
Proof.
  intros Hin Hu. unfold queuedBy. apply list_elem_of_omap.
  exists (ResponseError e). split; [done |].
  by rewrite (unauthorized_test e Hu).
Qed.

Lemma queuedBy_cons (ev : Event) (evs : list Event) :
  queuedBy (ev :: evs) = queuedBy [ev] ++ queuedBy evs.
Proof. unfold queuedBy. by rewrite <- omap_app. Qed.

Lemma queuedBy_unauthorized (errs : list AxiosError) :
  Forall unauthorized errs ->
  queuedBy (map ResponseError errs) = map (fun e => markRetry (config e)) errs.
Proof.
  induction 1 as [|e errs He _ IH]; [done |].
  cbn [map]. rewrite queuedBy_cons, IH. unfold queuedBy. simpl.
  by rewrite (unauthorized_test e He).
Qed.


Lemma eqb_login (p : string) :
  String.eqb p "/login" = bool_decide (p = "/login").
Proof.
  destruct (String.eqb_spec p "/login") as [-> | Hne].
  - by rewrite bool_decide_eq_true_2.
  - by rewrite bool_decide_eq_false_2.
Qed.

Lemma refresh_failure_step (w : World) (k : nat) (fr : Frame) (st : option nat) :
  singleFlight w -> awaiting (client w) !! k = Some fr ->
  step (RefreshResponse k (inr st)) w
  = Some (refreshRejected fr (mkError (refreshCall fr) st) (dropFrame k w)).
Proof.
  intros Hinv Hk.
  destruct (singleFlight_await w k fr Hinv Hk) as (-> & Ha & Hr & Hu).
  cbn [step]. rewrite Hk. by rewrite (refreshCall_rejected fr st w Hu).
Qed.

(** C5. When the refresh call of a suspended run fails (with whatever
    status), the token in memory, the expiry watcher and the stored user
    are cleared, a logout is posted to the other tabs if the channel is
    open, the browser is sent to [/login] unless it is there, and the
    promise of the original request is rejected with the error of the
    refresh call. Afterwards the flag [isRefreshing] is off, and it is
    off as well after a refresh that succeeds. *)
Theorem refresh_failure_clears_auth (w : World) (k : nat) (fr : Frame)
    (st : option nat) :
  reachable w ->
  awaiting (client w) !! k = Some fr ->
  exists w',
    step (RefreshResponse k (inr st)) w = Some w' /\
    accessTokenMemory (auth w') = None /\
    accessExpiryTimer (auth w') = None /\
    (forall id, accessExpiryTimer (auth w) = Some id ->
                id ∉ timers (window w')) /\
    localStorage (window w') !! "user" = None /\
    log w' = log w
      ++ (if authChannel (auth w) then [PostMessage Logout] else [])
      ++ (if bool_decide (pathname (window w) = "/login") then []
          else [LocationAssign "/login"])
      ++ [Reject (original fr) (mkError (refreshCall fr) st)] /\
    isRefreshing (client w') = false /\
    (forall token, exists w'',
        step (RefreshResponse k (inl token)) w = Some w'' /\
        isRefreshing (client w'') = false).
Proof.
  intros Hreach Hk. pose proof (reachable_singleFlight w Hreach) as Hinv.
  pose proof Hinv as (_ & _ & Ht & _).
  eexists. split; [by apply refresh_failure_step |].
  rewrite refreshRejected_eq. cbn -[clearAllAuth].
  destruct (clearAllAuth_frame (dropFrame k w)) as (Htok & Hx & _ & _ & _ & Hs & _).
  repeat split; try done.
  - intros id Hid. unfold clearAllAuth, broadcastAuthChange.
    assert (Hw : forall v, window (if authChannel (auth (clearLocalAuth (dropFrame k w)))
                         then emit v (clearLocalAuth (dropFrame k w))
                         else clearLocalAuth (dropFrame k w))
                 = window (clearLocalAuth (dropFrame k w))).
    { intros v. by destruct (authChannel _). }
    rewrite Hw. apply clearLocalAuth_timer; [done |].
    intros ->. by apply Ht.
  - rewrite Hs. apply lookup_delete_eq.
  - by rewrite eqb_login.
  - intros token. eexists. split.
    + cbn [step]. by rewrite Hk.
    + by rewrite refreshFulfilled_eq.
Qed.

(** C9. A failed refresh does not touch the queue: the continuations
    waiting in [pendingRequests] are still there afterwards, none of
    them was called (no request was resubmitted), and the only promise
    that was rejected is the one of the request that started the
    refresh. With the failure the refresh cycle is over: no run is
    suspended any more. *)
Theorem failed_refresh_leaves_queue_waiting (w : World) (k : nat) (fr : Frame)
    (st : option nat) :
  reachable w ->
  awaiting (client w) !! k = Some fr ->
  exists w' effs,
    step (RefreshResponse k (inr st)) w = Some w' /\
    pendingRequests (client w') = pendingRequests (client w) /\
    log w' = log w ++ effs /\
    retried effs = [] /\
    rejected effs = [original fr] /\
    refreshInFlight w' = 0.
Proof.
  intros Hreach Hk. pose proof (reachable_singleFlight w Hreach) as Hinv.
  destruct (singleFlight_await w k fr Hinv Hk) as (-> & Ha & Hr & Hu).
  eexists. eexists. split; [by apply refresh_failure_step |].
  rewrite refreshRejected_eq. cbn -[clearAllAuth].
  repeat split.
  - destruct (authChannel (auth w)), (String.eqb (pathname (window w)) "/login");
      reflexivity.
  - destruct (authChannel (auth w)), (String.eqb (pathname (window w)) "/login");
      reflexivity.
  - unfold refreshInFlight. cbn -[clearAllAuth]. by rewrite Ha.
Qed.

(** C7, as the code has it. The request interceptor makes no exception
    for the refresh endpoint: the refresh call of the response
    interceptor, and the one of [rotateTokens], carry
    [Authorization: Bearer <token>] exactly when a non-empty access
    token is in memory, and no such header when there is none. Both go
    out with credentials (the cookie) enabled. *)
Theorem refresh_call_authorization (w : World) (e : AxiosError) :
  unauthorized e ->
  isRefreshing (client w) = false ->
  let expected :=
    match accessTokenMemory (auth w) with
    | Some t => if Js.truthy t then Some (bearer t) else None
    | None => None
    end in
  (exists w' call,
     step (ResponseError e) w = Some w' /\
     log w' = log w ++ [Send call] /\
     url call = Some "/api/auth/refresh" /\
     withCredentials call = true /\
     authorization call = expected) /\
  (exists w' call,
     step (Call refreshRequest) w = Some w' /\
     log w' = log w ++ [Send call] /\
     url call = Some "/api/auth/refresh" /\
     withCredentials call = true /\
     authorization call = expected).
Proof.
  intros He Hr expected.
  assert (Hcall : url (requestInterceptor w refreshRequest)
                    = Some "/api/auth/refresh" /\
                  withCredentials (requestInterceptor w refreshRequest) = true /\
                  authorization (requestInterceptor w refreshRequest) = expected).
  { unfold expected, requestInterceptor, getAccessToken.
    destruct (accessTokenMemory (auth w)) as [t|]; [destruct (Js.truthy t) |];
      repeat split; try done; apply authorization_set. }
  split.
  - eexists. exists (requestInterceptor w refreshRequest). split.
    + cbn [step]. by rewrite (onResponseError_refreshing e w He Hr).
    + split; [done | apply Hcall].
  - eexists. exists (requestInterceptor w refreshRequest). split.
    + reflexivity.
    + split; [done | apply Hcall].
Qed.

End TabFacts.

(** *** Examples on a concrete tab *)

Section TabExamples.

#[local] Existing Instance exampleBuiltins.

Lemma loggedIn_reachable : reachable loggedIn.
Proof.
  exists true, ∅, "/inbox", None, [PersistLogin exampleUser "expired.token"].
  reflexivity.
Qed.

Lemma refreshing_reachable : reachable refreshing.
Proof.
  exists true, ∅, "/inbox", None,
    [PersistLogin exampleUser "expired.token";
     ResponseError (example401 "/api/mailboxes");
     ResponseError (example401 "/api/emails/42")].
  apply (bool_decide_unpack _). vm_compute. exact I.
Qed.


Lemma auth_endpoint_or_retried_is_propagated_witness :
  let e := mkError refreshRequest (Some 401) in
  onResponseError e refreshing = (refreshing, Rejected e) /\
  step (ResponseError e) refreshing
    = Some (emit (Reject refreshRequest e) refreshing).
Proof.
  intros e.
  destruct (auth_endpoint_or_retried_is_propagated e refreshing) as (H1 & H2 & _).
  - left. exists "/api/auth/refresh", "", "", "/api/auth/refresh".
    split; [reflexivity |]. split; [| reflexivity].
    apply list_elem_of_here.
  - split; assumption.
Defined.

Lemma refresh_failure_clears_auth_witness :
  exists w',
    step (RefreshResponse 0 (inr (Some 401))) refreshing = Some w' /\
    accessTokenMemory (auth w') = None /\
    localStorage (window w') !! "user" = None /\
    isRefreshing (client w') = false.
Proof.
  destruct (refresh_failure_clears_auth refreshing 0
              (mkFrame (markRetry (exampleRequest "/api/mailboxes"))
                 (requestInterceptor loggedIn refreshRequest))
              (Some 401) refreshing_reachable)
    as (w' & Hs & Ht & _ & _ & Hu & _ & Hr & _).
  - reflexivity.
  - exists w'. repeat split; assumption.
Defined.

Lemma failed_refresh_leaves_queue_waiting_witness :
  exists w',
    step (RefreshResponse 0 (inr None)) refreshing = Some w' /\
    pendingRequests (client w') = [markRetry (exampleRequest "/api/emails/42")].
Proof.
  destruct (failed_refresh_leaves_queue_waiting refreshing 0
              (mkFrame (markRetry (exampleRequest "/api/mailboxes"))
                 (requestInterceptor loggedIn refreshRequest))
              None refreshing_reachable)
    as (w' & effs & Hs & Hp & _).
  - reflexivity.
  - exists w'. split; [assumption |]. rewrite Hp. reflexivity.
Defined.

(** C7 fails on the code: the tab holds an (expired) token, a request
    comes back unauthorized, and the refresh call that follows goes out
    with that token in its [Authorization] header. *)
Lemma refresh_call_carries_bearer :
  exists w' call,
    step (ResponseError (example401 "/api/mailboxes")) loggedIn = Some w' /\
    log w' = log loggedIn ++ [Send call] /\
    url call = Some "/api/auth/refresh" /\
    authorization call = Some "Bearer expired.token".
Proof.
  eexists. eexists. split; [reflexivity |].
  split; [reflexivity |]. split; reflexivity.
Qed.

Lemma refresh_call_authorization_witness :
  exists w' call,
    step (ResponseError (example401 "/api/mailboxes")) loggedIn = Some w' /\
    log w' = log loggedIn ++ [Send call] /\
    authorization call = Some (bearer "expired.token").
Proof.
  destruct (refresh_call_authorization loggedIn (example401 "/api/mailboxes"))
    as [(w' & call & Hs & Hl & _ & _ & Ha) _].
  - repeat split.
  - reflexivity.
  - exists w', call. repeat split; assumption.
Defined.

(** What stays in the queue after a failed refresh is not lost for good
    when the page lives on (it is on [/login], so there is no redirect):
    the next refresh that succeeds calls the stale continuation too. *)
Example stale_continuation_called_by_next_refresh :
  exists w,
    run [ResponseError (example401 "/api/mailboxes");
         ResponseError (example401 "/api/emails/42");
         RefreshResponse 0 (inr (Some 401));
         PersistLogin exampleUser "second.token";
         ResponseError (example401 "/api/kanban");
         RefreshResponse 0 (inl "third.token")]
      (boot true ∅ "/login" None) = Some w /\
    rejected (log w) = [markRetry (exampleRequest "/api/mailboxes")] /\
    retried (log w) = [markRetry (exampleRequest "/api/emails/42");
                       markRetry (exampleRequest "/api/kanban")] /\
    pendingRequests (client w) = [].
Proof.
  set (r := run _ _).
  assert (Hr : from_option (fun w =>
            bool_decide (rejected (log w)
                         = [markRetry (exampleRequest "/api/mailboxes")]) &&
            bool_decide (retried (log w)
                         = [markRetry (exampleRequest "/api/emails/42");
                            markRetry (exampleRequest "/api/kanban")]) &&
            bool_decide (pendingRequests (client w) = [])) false r = true)
    by (vm_compute; reflexivity).
  clearbody r. destruct r as [w|]; [| discriminate].
  simpl in Hr. apply andb_true_iff in Hr as [Hr Hpending].
  apply andb_true_iff in Hr as [Hrejected Hretried].
  exists w. split; [reflexivity |].
  split; [by apply bool_decide_eq_true in Hrejected |].
  split; [by apply bool_decide_eq_true in Hretried |].
  by apply bool_decide_eq_true in Hpending.
Qed.

End TabExamples.

(** ** The facade *)

Section FacadeFacts.

Context {Mailbox EmailItem Meta EmailDetail : Type}.

Local Abbreviation Facade := (@Facade Mailbox EmailItem Meta EmailDetail).
Local Abbreviation Cache := (@Cache Mailbox EmailItem Meta EmailDetail).

(** C3. With a mailbox list in the cache, [getMailboxesCached] returns
    the cached list while it runs: it does not suspend, so no outcome of
    the live call can reach its result. The live call is issued and left
    detached. When that call settles later, on whatever state the cache
    is in by then, a success replaces the cached list by the fetched
    one, and a failure leaves the cache as it is and only writes a
    warning to the console. *)
Theorem mailboxes_read_is_cache_first (s : Facade) (cached : CachedMailboxes) :
  getCachedMailboxes (cache s) = Some cached ->
  getMailboxesCached s
  = (mkFacade (cache s) (background s ++ [BgMailboxes])
       (effects s ++ [Fetch GetMailboxes]),
     Returned (mkMailboxResponse "success" (mailboxes_data cached))) /\
  forall (s2 : Facade) (i : nat),
    background s2 !! i = Some BgMailboxes ->
    (forall response : MailboxResponse,
        exists s3,
          backgroundSettles i BgMailboxes (inr response) s2 = Some s3 /\
          getCachedMailboxes (cache s3)
            = Some (mkCachedMailboxes (mr_mailboxes response)) /\
          effects s3 = effects s2) /\
    (forall message : string,
        exists s3,
          backgroundSettles i BgMailboxes (inl message) s2 = Some s3 /\
          cache s3 = cache s2 /\
          effects s3
            = effects s2
                ++ [ConsoleWarn "Background mailbox fetch failed:" message]).
Proof.
  intros Hc. split.
  - unfold getMailboxesCached. by rewrite Hc.
  - intros s2 i Hi. unfold backgroundSettles.
    rewrite (bool_decide_eq_true_2 _ Hi).
    split; [intros response | intros message]; eexists; split; done.
Qed.

(** C4. A read of an email-list page with a page token always issues the
    live call and waits for it: nothing is returned before. If the live
    call fails, the read resolves with the page that was in the cache
    under this mailbox id and this page token when the read started,
    and throws the failure if there was none. *)
Theorem later_page_falls_back_to_cache (s : Facade) (mailboxId pageToken : string)
    (pageSize : option nat) :
  exists k,
    getMailboxEmailsInfiniteCached mailboxId (Some pageToken) pageSize s
    = (mkFacade (cache s) (background s)
         (effects s ++ [Fetch (GetMailboxEmailsInfinite mailboxId
                                 (Some pageToken) (default 20 pageSize))]),
       Suspended k) /\
    forall (message : string) (s2 : Facade),
      getMailboxEmailsInfiniteCached_resume k (inl message) s2
      = (s2,
         match emailLists (cache s) !! (mailboxId, Some pageToken) with
         | Some (items, meta) =>
             Resolved (mkMailboxEmailsResponse "success" items meta)
         | None => Thrown message
         end).
Proof.
  eexists. split.
  - reflexivity.
  - intros message s2. unfold getMailboxEmailsInfiniteCached_resume. simpl.
    unfold getCachedEmailList.
    by destruct (emailLists (cache s) !! (mailboxId, Some pageToken)) as [[items meta]|].
Qed.

(** ** The push handler *)

Context {GmailNotification : Type}.

Local Abbreviation Inbox := (@Inbox Mailbox EmailItem Meta EmailDetail).
Local Abbreviation PushEvent := (@PushEvent GmailNotification).

Lemma snoc_split {A : Type} (l older newer : list A) (x y : A) :
  l ++ [x] = older ++ y :: newer ->
  (newer = [] /\ older = l /\ x = y) \/
  (exists newer', newer = newer' ++ [x] /\ l = older ++ y :: newer').
Proof.
  destruct newer as [|z newer' _] using rev_ind; intros Heq.
  - apply app_inj_tail in Heq as [-> ->]. by left.
  - right. exists newer'.
    change (older ++ y :: newer' ++ [z]) with (older ++ (y :: newer') ++ [z]) in Heq.
    rewrite app_assoc in Heq. apply app_inj_tail in Heq as [-> ->]. done.
Qed.

Lemma cascadeOrdered_nil : cascadeOrdered [].
Proof. intros older newer k key Heq. by destruct older. Qed.

Lemma cascadeOrdered_invalidated (l : list PushEffect) (k : nat) (part : CachePart) :
  cascadeOrdered l ->
  (forall key, InvalidateQueries k key ∉ l) ->
  cascadeOrdered (l ++ [Invalidated k part]).
Proof.
  intros Hord Hfresh older newer k' key Heq.
  apply snoc_split in Heq as [(_ & _ & Hx) | (newer' & -> & ->)]; [done |].
  destruct (Hord older newer' k' key eq_refl) as (H1 & H2 & H3).
  repeat split; try done.
  intros p. rewrite elem_of_app, list_elem_of_singleton.
  intros [Hin | [= -> ->]]; [by apply (H3 p) |].
  apply (Hfresh key). set_solver.
Qed.

Lemma cascadeOrdered_queries (l : list PushEffect) (k : nat) (key : string) :
  cascadeOrdered l ->
  Invalidated k EmailLists ∈ l ->
  Invalidated k MailboxList ∈ l ->
  cascadeOrdered (l ++ [InvalidateQueries k key]).
Proof.
  intros Hord HL HM older newer k' key' Heq.
  apply snoc_split in Heq as [(-> & -> & [= -> ->]) | (newer' & -> & ->)].
  - repeat split; try done. intros p. apply not_elem_of_nil.
  - destruct (Hord older newer' k' key' eq_refl) as (H1 & H2 & H3).
    repeat split; try done.
    intros p. rewrite elem_of_app, list_elem_of_singleton.
    intros [Hin | [=]]. by apply (H3 p).
Qed.

Lemma afterInvalidation_cases (k : nat) (r : PushRun) (l : list PushEffect) :
  (r = mkPushRun Fulfilled Fulfilled /\
   afterInvalidation k r l
     = l ++ [InvalidateQueries k "emails"; InvalidateQueries k "mailboxes";
             InvalidateQueries k "kanban-emails"]) \/
  (r <> mkPushRun Fulfilled Fulfilled /\ afterInvalidation k r l = l).
Proof.
  destruct r as [[| |] [| |]]; unfold afterInvalidation; simpl;
    first [by left | by right].
Qed.

Lemma settle_pushInvariant (s : Inbox) (k : nat) (r r' : PushRun)
    (part : CachePart) (ok : bool) (st : Cache) :
  pushInvariant s ->
  runs s !! k = Some r ->
  promiseOf part r = Running ->
  promiseOf part r' = settle ok ->
  (forall p, p <> part -> promiseOf p r' = promiseOf p r) ->
  pushInvariant
    (mkInbox st (<[k := r']> (runs s))
       (afterInvalidation k r'
          (if ok then pushLog s ++ [Invalidated k part] else pushLog s))).
Proof.
  intros (Hord & Hdone & Hsig & Hlive) Hk Hrun Hnew Hother.
  assert (Hlt : k < length (runs s)) by (by eapply lookup_lt_Some).
  assert (Hfresh : forall key, InvalidateQueries k key ∉ pushLog s).
  { intros key Hin. apply Hsig in Hin. rewrite Hk in Hin.
    injection Hin as ->. by destruct part. }
  set (l1 := if ok then pushLog s ++ [Invalidated k part] else pushLog s).
  assert (Hsub : forall e, e ∈ pushLog s -> e ∈ l1).
  { intros e He. unfold l1. destruct ok; set_solver. }
  assert (Hord1 : cascadeOrdered l1).
  { unfold l1. destruct ok; [by apply cascadeOrdered_invalidated | done]. }
  assert (Hdone1 : forall p, promiseOf p r' = Fulfilled -> Invalidated k p ∈ l1).
  { intros p Hp. destruct (decide (p = part)) as [-> | Hne].
    - rewrite Hnew in Hp. unfold l1. destruct ok; [set_solver | done].
    - rewrite (Hother p Hne) in Hp. apply Hsub. by eapply Hdone. }
  assert (Hlook : forall k' x, <[k := r']> (runs s) !! k' = Some x ->
                    (k' = k /\ x = r') \/ (k' <> k /\ runs s !! k' = Some x)).
  { intros k' x Hx. destruct (decide (k' = k)) as [-> | Hne].
    - rewrite list_lookup_insert_eq in Hx by done. injection Hx as <-. by left.
    - rewrite list_lookup_insert_ne in Hx by done. by right. }
  destruct (afterInvalidation_cases k r' l1) as [[Hr' ->] | [Hr' ->]];
    unfold pushInvariant; cbn [pushLog runs].
  - assert (HL : Invalidated k EmailLists ∈ l1) by (apply Hdone1; by rewrite Hr').
    assert (HM : Invalidated k MailboxList ∈ l1) by (apply Hdone1; by rewrite Hr').
    split; [| split; [| split]].
    + change (l1 ++ [InvalidateQueries k "emails"; InvalidateQueries k "mailboxes";
                     InvalidateQueries k "kanban-emails"])
        with (l1 ++ [InvalidateQueries k "emails"] ++ [InvalidateQueries k "mailboxes"]
                 ++ [InvalidateQueries k "kanban-emails"]).
      rewrite !app_assoc.
      repeat apply cascadeOrdered_queries; try done; set_solver.
    + intros k' x p Hx Hp. apply elem_of_app. left.
      destruct (Hlook k' x Hx) as [[-> ->] | [Hne Hold]]; [by apply Hdone1 |].
      apply Hsub. by eapply Hdone.
    + intros k' key Hin. apply elem_of_app in Hin as [Hin | Hin].
      * assert (Hin' : InvalidateQueries k' key ∈ pushLog s).
        { unfold l1 in Hin. destruct ok; [| done].
          apply elem_of_app in Hin as [Hin | Hin]; [done |].
          apply list_elem_of_singleton in Hin. discriminate Hin. }
        pose proof (Hsig k' key Hin') as Hrun'.
        destruct (decide (k' = k)) as [-> | Hne]; [by destruct (Hfresh key) |].
        by rewrite list_lookup_insert_ne.
      * assert (k' = k) as ->.
        { rewrite !elem_of_cons in Hin.
          destruct Hin as [[= -> _] | [[= -> _] | [[= -> _] | Hin]]]; try done.
          by apply not_elem_of_nil in Hin. }
        rewrite list_lookup_insert_eq by done. by rewrite Hr'.
    + intros k' key Hx Hkey. apply elem_of_app.
      destruct (Hlook k' _ Hx) as [[-> _] | [Hne Hold]].
      * right. exact (list_elem_of_fmap_2 (InvalidateQueries k) _ _ Hkey).
      * left. apply Hsub. by apply Hlive.
  - split; [| split; [| split]].
    + done.
    + intros k' x p Hx Hp.
      destruct (Hlook k' x Hx) as [[-> ->] | [Hne Hold]]; [by apply Hdone1 |].
      apply Hsub. by eapply Hdone.
    + intros k' key Hin.
      assert (Hin' : InvalidateQueries k' key ∈ pushLog s).
      { unfold l1 in Hin. destruct ok; [| done].
        apply elem_of_app in Hin as [Hin | Hin]; [done |].
        apply list_elem_of_singleton in Hin. discriminate Hin. }
      pose proof (Hsig k' key Hin') as Hrun'.
      destruct (decide (k' = k)) as [-> | Hne]; [by destruct (Hfresh key) |].
      by rewrite list_lookup_insert_ne.
    + intros k' key Hx Hkey.
      destruct (Hlook k' _ Hx) as [[-> Heq] | [Hne Hold]]; [by destruct Hr' |].
      apply Hsub. by apply Hlive.
Qed.

Lemma pushStep_pushInvariant (ev : PushEvent) (s s' : Inbox) :
  pushInvariant s -> pushStep ev s = Some s' -> pushInvariant s'.
Proof.
  intros Hinv Hstep. destruct ev as [n | k ok | k ok]; simpl in Hstep.
  - injection Hstep as <-. destruct Hinv as (Hord & Hdone & Hsig & Hlive).
    assert (Hlook : forall k x, (runs s ++ [mkPushRun Running Running]) !! k = Some x ->
                      runs s !! k = Some x \/ x = mkPushRun Running Running).
    { intros k x Hx. apply lookup_app_Some in Hx as [Hx | [_ Hx]]; [by left |].
      right. apply list_lookup_singleton_Some in Hx as [_ <-]. done. }
    unfold pushInvariant. cbn [pushLog runs].
    split; [done |]. split; [| split].
    + intros k r part Hk Hp. destruct (Hlook k r Hk) as [Hold | ->].
      * by eapply Hdone.
      * by destruct part.
    + intros k key Hin. apply lookup_app_l_Some. by eapply Hsig.
    + intros k key Hk Hkey. destruct (Hlook k _ Hk) as [Hold | [=]].
      by apply Hlive.
  - destruct (runs s !! k) as [[[| |] m]|] eqn:Hk; try done.
    injection Hstep as <-.
    apply (settle_pushInvariant s k (mkPushRun Running m) _ EmailLists ok);
      try done.
    intros p Hp. by destruct p.
  - destruct (runs s !! k) as [[l [| |]]|] eqn:Hk; try done.
    injection Hstep as <-.
    apply (settle_pushInvariant s k (mkPushRun l Running) _ MailboxList ok);
      try done.
    intros p Hp. by destruct p.
Qed.

Lemma pushRun_pushInvariant (evs : list PushEvent) (s s' : Inbox) :
  pushInvariant s -> pushRun evs s = Some s' -> pushInvariant s'.
Proof.
  revert s. induction evs as [|ev evs IH]; intros s Hinv Hrun; simpl in Hrun.
  - by injection Hrun as <-.
  - destruct (pushStep ev s) as [s1|] eqn:Hs; [| done].
    eapply IH; [| done]. by eapply pushStep_pushInvariant.
Qed.


End FacadeFacts.


Lemma mailboxes_read_is_cache_first_witness :
  let s := mkFacade exampleCache [] [] in
  getMailboxesCached s
  = (mkFacade (cache s) [BgMailboxes] [Fetch GetMailboxes],
     Returned (mkMailboxResponse "success" ["INBOX"; "SENT"])).
Proof.
  intros s.
  exact (proj1 (mailboxes_read_is_cache_first s
                  (mkCachedMailboxes ["INBOX"; "SENT"]) eq_refl)).
Defined.

(** * More facts *)

(** ** The tab, continued *)

Section TabMoreFacts.

Context `{Builtins} `{JsonParse}.

(** *** What a step does to the token holder and the timers *)

Lemma sameCore_refl (w : World) : sameCore w w.
Proof. by repeat split. Qed.

Lemma clearAllAuth_core (w : World) :
  auth (clearAllAuth w) = auth (clearLocalAuth w) /\
  window (clearAllAuth w) = window (clearLocalAuth w).
Proof.
  unfold clearAllAuth, broadcastAuthChange.
  by destruct (authChannel (auth (clearLocalAuth w))).
Qed.

Lemma step_core (ev : Event) (w w' : World) :
  step ev w = Some w' ->
  sameCore w' w \/
  (exists t w0, sameCore w0 w /\
     auth w' = auth (setAccessToken t w0) /\
     window w' = window (setAccessToken t w0)) \/
  (exists w0, sameCore w0 w /\
     auth w' = auth (clearLocalAuth w0) /\
     window w' = window (clearLocalAuth w0)).
Proof.
  intros Hstep.
  destruct ev as [c | e | k r | m | user token]; simpl in Hstep.
  - injection Hstep as <-. left. by repeat split.
  - left. destruct (onResponseError_cases e w) as [E | [[E _] | [E _]]];
      rewrite E in Hstep; injection Hstep as <-; by repeat split.
  - destruct (awaiting (client w) !! k) as [fr|]; [| done].
    destruct r as [token | st].
    + injection Hstep as <-. right; left.
      exists (Some token), (dropFrame k w). split; [by repeat split |].
      by rewrite refreshFulfilled_eq.
    + destruct (onResponseError_cases (mkError (refreshCall fr) st) w)
        as [E | [[E _] | [E _]]];
        rewrite E in Hstep; injection Hstep as <-;
        try (left; by repeat split).
      right; right. exists (dropFrame k w). split; [by repeat split |].
      rewrite refreshRejected_eq. cbn -[clearAllAuth]. apply clearAllAuth_core.
  - injection Hstep as <-. destruct m as [| user token].
    + right; right. exists w. split; [by repeat split | done].
    + right; left. exists (Some token), (setUserState (Some user) w).
      split; [by repeat split | done].
  - injection Hstep as <-. right; left.
    exists (Some token), (setStoredUser (Some user) w).
    split; [by repeat split |].
    unfold persistLoginInfo, broadcastAuthChange.
    by destruct (authChannel _).
Qed.

(** *** The expiry watcher *)

Lemma watcher_owned (w : World) : watcherMatchesToken w -> timersOwned w.
Proof.
  unfold watcherMatchesToken, timersOwned.
  destruct (decodeJwtExp _) as [ms|]; [destruct (Js.truthyZ ms) |]; auto.
Qed.

Lemma watcher_core (w0 w : World) :
  auth w0 = auth w -> timers (window w0) = timers (window w) ->
  watcherMatchesToken w -> watcherMatchesToken w0.
Proof. unfold watcherMatchesToken. by intros -> ->. Qed.

Lemma filter_out_self (id : nat) : filter (fun i => i <> id) [id] = [].
Proof. rewrite filter_cons. by rewrite decide_False by tauto. Qed.

Lemma setAccessToken_watcher (token : option string) (w : World) :
  accessExpiryTimer (auth w) <> Some 0 -> timersOwned w ->
  watcherMatchesToken (setAccessToken token w).
Proof.
  destruct w as [[tok tmr ch] [bc ls path tms nt] cl u lg].
  unfold timersOwned. simpl. intros Hz Hown.
  assert (Hcases : (tms = [] /\ (tmr = None \/ exists n, tmr = Some (S n))) \/
                   (exists n, tms = [S n] /\ tmr = Some (S n))).
  { destruct Hown as [-> | (id & -> & ->)].
    - left. split; [done |]. destruct tmr as [[|n]|]; eauto. done.
    - right. destruct id as [|n]; [done | eauto]. }
  unfold setAccessToken, scheduleAccessExpiryWatcher, watcherMatchesToken.
  destruct Hcases as [[-> [-> | [n ->]]] | (n & -> & ->)]; simpl;
    rewrite ?filter_out_self;
    destruct (decodeJwtExp token) as [ms|] eqn:Hd; simpl; rewrite ?Hd;
    try destruct (Js.truthyZ ms) eqn:Hms; simpl; rewrite ?Hd, ?Hms;
    rewrite ?filter_out_self; eauto.
Qed.

Lemma clearLocalAuth_watcher (w : World) :
  accessExpiryTimer (auth w) <> Some 0 -> timersOwned w ->
  watcherMatchesToken (clearLocalAuth w).
Proof.
  destruct w as [[tok tmr ch] [bc ls path tms nt] cl u lg].
  unfold timersOwned, clearLocalAuth, watcherMatchesToken. simpl.
  intros Hz [-> | (id & -> & ->)].
  - by destruct tmr as [[|n]|].
  - destruct id as [|n]; [done |]. simpl. apply filter_out_self.
Qed.

Lemma step_watcher (ev : Event) (w w' : World) :
  accessExpiryTimer (auth w) <> Some 0 ->
  watcherMatchesToken w -> step ev w = Some w' -> watcherMatchesToken w'.
Proof.
  intros Hz Hinv Hstep.
  destruct (step_core ev w w' Hstep)
    as [(Ha & Ht & _) | [(t & w0 & (Ha & Ht & _) & Ha' & Hw') |
                         (w0 & (Ha & Ht & _) & Ha' & Hw')]].
  - by apply (watcher_core w' w).
  - apply (watcher_core w' (setAccessToken t w0)); [done | by rewrite Hw' |].
    apply setAccessToken_watcher; [by rewrite Ha |].
    apply watcher_owned. by apply (watcher_core w0 w).
  - apply (watcher_core w' (clearLocalAuth w0)); [done | by rewrite Hw' |].
    apply clearLocalAuth_watcher; [by rewrite Ha |].
    apply watcher_owned. by apply (watcher_core w0 w).
Qed.

Lemma boot_watcher bc storage path user :
  watcherMatchesToken (boot bc storage path user).
Proof.
  unfold boot, initAuthWatchers, initBroadcastChannel, watcherMatchesToken.
  by destruct bc.
Qed.

Lemma run_watcher (evs : list Event) (w w' : World) :
  singleFlight w -> watcherMatchesToken w -> run evs w = Some w' ->
  watcherMatchesToken w'.
Proof.
  revert w. induction evs as [|ev evs IH]; intros w Hsf Hinv Hrun; simpl in Hrun.
  - by injection Hrun as <-.
  - destruct (step ev w) as [w1|] eqn:Hs; [| done].
    apply (IH w1); [by eapply step_singleFlight | | done].
    eapply step_watcher; [| done | done]. apply Hsf.
Qed.


(** *** Tabs without a broadcast channel *)

Lemma posted_app (l1 l2 : list Effect) :
  posted (l1 ++ l2) = posted l1 ++ posted l2.
Proof. unfold posted. apply omap_app. Qed.

Lemma posted_retries (f : RequestConfig -> RequestConfig) (l : list RequestConfig) :
  posted (map (fun c => Retry c (f c)) l) = [].
Proof. by induction l. Qed.

Lemma clearLocalAuth_channel (w : World) :
  hasBroadcastChannel (window (clearLocalAuth w)) = hasBroadcastChannel (window w).
Proof.
  unfold clearLocalAuth, clearTimer. simpl.
  by destruct (accessExpiryTimer (auth w)) as [[|n]|].
Qed.

Lemma step_no_channel (ev : Event) (w w' : World) :
  authChannel (auth w) = false -> step ev w = Some w' ->
  authChannel (auth w') = false /\
  hasBroadcastChannel (window w') = hasBroadcastChannel (window w) /\
  posted (log w') = posted (log w).
Proof.
  intros Hch Hstep.
  destruct ev as [c | e | k r | m | user token]; cbn [step] in Hstep.
  - injection Hstep as <-. simpl. by rewrite posted_app, app_nil_r.
  - destruct (onResponseError_cases e w) as [E | [[E _] | [E _]]];
      rewrite E in Hstep; injection Hstep as <-; simpl;
      rewrite ?posted_app, ?app_nil_r; done.
  - destruct (awaiting (client w) !! k) as [fr|]; [| done].
    destruct r as [token | st].
    + injection Hstep as <-. rewrite refreshFulfilled_eq.
      destruct (setAccessToken_frame (Some token) (dropFrame k w))
        as (_ & Hc & _ & _ & Hb & _).
      cbn -[setAccessToken]. rewrite Hc, Hb, posted_app, posted_retries.
      by rewrite app_nil_r.
    + assert (Hrej : forall w0 e0,
                authChannel (auth w0) = false ->
                hasBroadcastChannel (window w0) = hasBroadcastChannel (window w) ->
                posted (log w0) = posted (log w) ->
                authChannel (auth (refreshRejected fr e0 w0)) = false /\
                hasBroadcastChannel (window (refreshRejected fr e0 w0))
                  = hasBroadcastChannel (window w) /\
                posted (log (refreshRejected fr e0 w0)) = posted (log w)).
      { intros w0 e0 H1 H2 H3. rewrite refreshRejected_eq.
        destruct (clearAllAuth_core w0) as [Ha Hw].
        destruct (clearLocalAuth_auth w0) as (_ & _ & Hc).
        cbn -[clearAllAuth]. rewrite Ha, Hw, Hc, clearLocalAuth_channel, H1.
        rewrite !posted_app, H3.
        destruct (String.eqb (pathname (window w0)) "/login"); 
          by rewrite !app_nil_r. }
      destruct (onResponseError_cases (mkError (refreshCall fr) st) w)
        as [E | [[E _] | [E _]]];
        rewrite E in Hstep; injection Hstep as <-;
        try (simpl; rewrite ?posted_app, ?app_nil_r; done).
      by apply Hrej.
  - injection Hstep as <-. destruct m as [| user token].
    + destruct (clearLocalAuth_auth w) as (_ & _ & Hc).
      destruct (clearLocalAuth_frame w) as (Hl & _).
      cbn -[clearLocalAuth].
      by rewrite Hc, clearLocalAuth_channel, posted_app, Hl, app_nil_r.
    + destruct (setAccessToken_frame (Some token) (setUserState (Some user) w))
        as (_ & Hc & _ & _ & Hb & _ & _ & Hl).
      cbn -[setAccessToken]. by rewrite Hc, Hb, Hl.
  - injection Hstep as <-.
    destruct (setAccessToken_frame (Some token) (setStoredUser (Some user) w))
      as (_ & Hc & _ & _ & Hb & _ & _ & Hl).
    unfold persistLoginInfo, broadcastAuthChange. cbv zeta.
    rewrite Hc.
    change (authChannel (auth (setStoredUser (Some user) w)))
      with (authChannel (auth w)).
    rewrite Hch. by rewrite Hc, Hb, Hl.
Qed.

Lemma run_no_channel (evs : list Event) (w w' : World) :
  authChannel (auth w) = false -> run evs w = Some w' ->
  authChannel (auth w') = false /\
  hasBroadcastChannel (window w') = hasBroadcastChannel (window w) /\
  posted (log w') = posted (log w).
Proof.
  revert w. induction evs as [|ev evs IH]; intros w Hch Hrun; simpl in Hrun.
  - by injection Hrun as <-.
  - destruct (step ev w) as [w1|] eqn:Hs; [| done].
    destruct (step_no_channel ev w w1 Hch Hs) as (H1 & H2 & H3).
    destruct (IH w1 H1 Hrun) as (H4 & H5 & H6).
    by rewrite H5, H6, H2, H3.
Qed.

Lemma step_hasBroadcastChannel (ev : Event) (w w' : World) :
  step ev w = Some w' ->
  hasBroadcastChannel (window w') = hasBroadcastChannel (window w).
Proof.
  intros Hstep.
  destruct (step_core ev w w' Hstep)
    as [(_ & _ & _ & Hb) | [(t & w0 & (_ & _ & _ & Hb) & _ & Hw') |
                            (w0 & (_ & _ & _ & Hb) & _ & Hw')]].
  - done.
  - rewrite Hw', <- Hb. apply setAccessToken_frame.
  - by rewrite Hw', clearLocalAuth_channel.
Qed.

Lemma run_hasBroadcastChannel (evs : list Event) (w w' : World) :
  run evs w = Some w' ->
  hasBroadcastChannel (window w') = hasBroadcastChannel (window w).
Proof.
  revert w. induction evs as [|ev evs IH]; intros w Hrun; simpl in Hrun.
  - by injection Hrun as <-.
  - destruct (step ev w) as [w1|] eqn:Hs; [| done].
    rewrite (IH w1 Hrun). by eapply step_hasBroadcastChannel.
Qed.

(** X2. A tab in a browser without [BroadcastChannel] never creates the
    channel and never posts a message, whatever happens in it: logins,
    logouts by a failed refresh and messages handed to its handler leave
    the list of posted messages empty. *)
Theorem no_channel_no_broadcast (w : World) :
  reachable w ->
  hasBroadcastChannel (window w) = false ->
  authChannel (auth w) = false /\ posted (log w) = [].
Proof.
  intros (bc & storage & path & user & evs & Hrun) Hbc.
  rewrite (run_hasBroadcastChannel evs _ w Hrun) in Hbc.
  assert (bc = false) as -> by (by destruct bc).
  destruct (run_no_channel evs (boot false storage path user) w eq_refl Hrun)
    as (Hch & _ & Hp).
  split; [done |]. by rewrite Hp.
Qed.

(** *** Requests are resubmitted once *)

Lemma logMarked_app (l effs : list Effect) :
  logMarked l -> retried effs = [] -> logMarked (l ++ effs).
Proof.
  intros Hl Hnone o s Hin. apply elem_of_app in Hin as [Hin | Hin].
  - by apply (Hl o s).
  - assert (Ho : o ∈ retried effs).
    { unfold retried. apply list_elem_of_omap. by exists (Retry o s). }
    rewrite Hnone in Ho. by apply not_elem_of_nil in Ho.
Qed.

Lemma retriesMarked_log (w w' : World) (effs : list Effect) :
  client w' = client w -> log w' = log w ++ effs -> retried effs = [] ->
  retriesMarked w -> retriesMarked w'.
Proof.
  intros Hc Hl Hnone (Hp & Ha & Hlog). unfold retriesMarked.
  rewrite Hc, Hl. split; [done |]. split; [done |]. by apply logMarked_app.
Qed.

Lemma onResponseError_marked (e : AxiosError) (w w' : World) (o : Outcome) :
  onResponseError e w = (w', o) -> retriesMarked w -> retriesMarked w'.
Proof.
  intros Hres (Hp & Ha & Hlog).
  destruct (onResponseError_cases e w) as [E | [[E _] | [E _]]];
    rewrite E in Hres; injection Hres as <- <-.
  - done.
  - split; [| done]. simpl. apply Forall_app. split; [done |].
    by constructor.
  - split; [done |]. split.
    + simpl. apply Forall_app. split; [done |]. by constructor.
    + simpl. by apply logMarked_app.
Qed.

Lemma dropFrame_marked (k : nat) (w : World) :
  retriesMarked w -> retriesMarked (dropFrame k w).
Proof.
  intros (Hp & Ha & Hlog). split; [done |]. split; [| done]. simpl.
  by apply Forall_delete.
Qed.

Lemma refreshFulfilled_marked (fr : Frame) (token : string) (w : World) :
  _retry (original fr) = true ->
  retriesMarked w -> retriesMarked (refreshFulfilled fr token w).
Proof.
  intros Hfr (Hp & Ha & Hlog). rewrite refreshFulfilled_eq.
  split; [by constructor |]. split; [done |].
  cbn -[setAccessToken].
  intros o s Hin. apply elem_of_app in Hin as [Hin | Hin]; [by apply (Hlog o s) |].
  apply list_elem_of_fmap in Hin as (c & [= -> ->] & Hc).
  assert (Hmark : _retry c = true).
  { apply elem_of_app in Hc as [Hc | Hc].
    - rewrite Forall_forall in Hp. by apply Hp.
    - apply list_elem_of_singleton in Hc. by subst. }
  split.
  - destruct (requestInterceptor_shape (setAccessToken (Some token) w)
                (setAuthorization (bearer token) c)) as (_ & -> & _).
    done.
  - exists token. apply resubmitted_authorization. apply setAccessToken_frame.
Qed.

Lemma refreshRejected_marked (fr : Frame) (e : AxiosError) (w : World) :
  retriesMarked w -> retriesMarked (refreshRejected fr e w).
Proof.
  intros (Hp & Ha & Hlog). rewrite refreshRejected_eq.
  split; [done |]. split; [done |]. cbn -[clearAllAuth].
  apply logMarked_app; [done |].
  by destruct (authChannel (auth w)),
       (String.eqb (pathname (window w)) "/login").
Qed.

Lemma step_marked (ev : Event) (w w' : World) :
  retriesMarked w -> step ev w = Some w' -> retriesMarked w'.
Proof.
  intros Hinv Hstep.
  destruct ev as [c | e | k r | m | user token]; cbn [step] in Hstep.
  - injection Hstep as <-.
    by apply (retriesMarked_log w _ [Send (requestInterceptor w c)]).
  - destruct (onResponseError e w) as [w1 o] eqn:E.
    pose proof (onResponseError_marked e w w1 o E Hinv) as H1.
    injection Hstep as <-. destruct o; try done.
    by apply (retriesMarked_log w1 _ [Reject (config e) e0]).
  - destruct (awaiting (client w) !! k) as [fr|] eqn:Hk; [| done].
    assert (Hfr : _retry (original fr) = true).
    { destruct Hinv as (_ & Ha & _). rewrite Forall_forall in Ha.
      apply Ha. by eapply list_elem_of_lookup_2. }
    destruct r as [token | st].
    + injection Hstep as <-.
      apply refreshFulfilled_marked; [done |]. by apply dropFrame_marked.
    + destruct (onResponseError (mkError (refreshCall fr) st) w)
        as [w1 o] eqn:E.
      pose proof (onResponseError_marked _ w w1 o E Hinv) as H1.
      injection Hstep as <-. destruct o; try done.
      apply refreshRejected_marked. by apply dropFrame_marked.
  - injection Hstep as <-. destruct m as [| user token].
    + apply (retriesMarked_log w _ [QueryClientClear]); try done;
        cbn -[clearLocalAuth].
      * apply clearLocalAuth_frame.
      * by destruct (clearLocalAuth_frame w) as (-> & _).
    + apply (retriesMarked_log w _ []); try done; cbn -[setAccessToken].
      * apply (setAccessToken_frame (Some token) (setUserState (Some user) w)).
      * rewrite app_nil_r.
        apply (setAccessToken_frame (Some token) (setUserState (Some user) w)).
  - injection Hstep as <-.
    destruct (persistLoginInfo_frame user token w) as (Hc & effs & Hl & _ & Hq).
    by apply (retriesMarked_log w _ effs).
Qed.

Lemma boot_marked bc storage path user :
  retriesMarked (boot bc storage path user).
Proof.
  unfold boot, initAuthWatchers, initBroadcastChannel.
  destruct bc; (split; [by constructor |]); (split; [by constructor |]);
    intros o s Hin; by apply not_elem_of_nil in Hin.
Qed.

Lemma reachable_marked (w : World) : reachable w -> retriesMarked w.
Proof.
  intros (bc & storage & path & user & evs & Hrun).
  pose proof (boot_marked bc storage path user) as Hinv.
  revert Hrun Hinv. generalize (boot bc storage path user).
  induction evs as [|ev evs IH]; intros w0 Hrun Hinv; simpl in Hrun.
  - by injection Hrun as <-.
  - destruct (step ev w0) as [w1|] eqn:Hs; [| done].
    apply (IH w1 Hrun). by eapply step_marked.
Qed.

(** X3. Whatever a tab has resubmitted after a refresh carries the
    retried mark and a bearer header; when such a request fails again,
    with any status and in any state, the handler hands the failure to
    the caller and starts no refresh and queues nothing: a request is
    retried at most once. *)
Theorem resubmitted_request_is_not_retried_again (w : World)
    (o s : RequestConfig) :
  reachable w ->
  Retry o s ∈ log w ->
  _retry s = true /\
  (exists t, authorization s = Some (bearer t)) /\
  forall (st : option nat) (w' : World),
    onResponseError (mkError s st) w' = (w', Rejected (mkError s st)) /\
    step (ResponseError (mkError s st)) w'
      = Some (emit (Reject s (mkError s st)) w').
Proof.
  intros Hreach Hin.
  destruct (reachable_marked w Hreach) as (_ & _ & Hlog).
  destruct (Hlog o s Hin) as [Hmark Hauth].
  split; [done |]. split; [done |].
  intros st w'.
  assert (Hrej : onResponseError (mkError s st) w'
                 = (w', Rejected (mkError s st))).
  { apply onResponseError_propagates. by right. }
  split; [done |]. cbn [step]. by rewrite Hrej.
Qed.

(** *** Login and logout *)

Lemma setAccessToken_storage (token : option string) (w : World) :
  localStorage (window (setAccessToken token w)) = localStorage (window w).
Proof. apply setAccessToken_frame. Qed.

(** X4. A login in one tab reaches the others: with the channel open,
    [persistLoginInfo] stores the user under the key [user], keeps the
    token in memory and posts exactly one [login] message; a tab that
    receives what was posted holds the same token and the same user
    afterwards, posts nothing itself and leaves its view of the storage
    alone. *)
Theorem login_reaches_other_tabs (a b : World) (user : StoredUser)
    (accessToken : string) :
  authChannel (auth a) = true ->
  let a' := persistLoginInfo user accessToken a in
  let b' := deliver [Login user accessToken] b in
  posted (log a') = posted (log a) ++ [Login user accessToken] /\
  accessTokenMemory (auth a') = Some accessToken /\
  localStorage (window a') !! "user" = Some (JSON_stringify user) /\
  accessTokenMemory (auth b') = accessTokenMemory (auth a') /\
  userState b' = Some user /\
  posted (log b') = posted (log b) /\
  localStorage (window b') = localStorage (window b).
Proof.
  intros Hch a' b'.
  destruct (setAccessToken_frame (Some accessToken) (setStoredUser (Some user) a))
    as (Ht & Hc & Hs & _ & _ & _ & _ & Hl).
  assert (Ha' : a' = emit (PostMessage (Login user accessToken))
                       (setAccessToken (Some accessToken)
                          (setStoredUser (Some user) a))).
  { unfold a', persistLoginInfo, broadcastAuthChange. cbv zeta.
    rewrite Hc.
    change (authChannel (auth (setStoredUser (Some user) a)))
      with (authChannel (auth a)).
    by rewrite Hch. }
  destruct (setAccessToken_frame (Some accessToken) (setUserState (Some user) b))
    as (Htb & _ & Hsb & _ & _ & _ & Hub & Hlb).
  rewrite Ha'. unfold b', deliver. cbn -[setAccessToken setStoredUser].
  rewrite Ht, Hs, Hl, Htb, Hsb, Hub, Hlb.
  split; [by rewrite posted_app |]. split; [done |].
  split; [apply lookup_insert_eq | done].
Qed.

(** X5. [logout] always ends in a clean state, with or without a user
    and whatever the logout endpoint answers: no token in memory, no
    stored user, no user state, the query cache and the email cache
    cleared, and one [logout] message posted when the channel is open.
    The logout endpoint is called only when a user is signed in. *)
Theorem logout_always_cleans_up (r : unit + AxiosError) (p : Provider) :
  let p' := logout_run r p in
  accessTokenMemory (auth (tab p')) = None /\
  accessExpiryTimer (auth (tab p')) = None /\
  localStorage (window (tab p')) !! "user" = None /\
  userState (tab p') = None /\
  emailCacheClears p' = S (emailCacheClears p) /\
  log (tab p')
    = log (tab p)
        ++ match userState (tab p) with
           | Some _ => [Send (requestInterceptor (tab p) logoutRequest)]
           | None => []
           end
        ++ (if authChannel (auth (tab p)) then [PostMessage Logout] else [])
        ++ [QueryClientClear].
Proof.
  assert (Hfin : forall q : Provider,
    accessTokenMemory (auth (tab (logout_finally q))) = None /\
    accessExpiryTimer (auth (tab (logout_finally q))) = None /\
    localStorage (window (tab (logout_finally q))) !! "user" = None /\
    userState (tab (logout_finally q)) = None /\
    emailCacheClears (logout_finally q) = S (emailCacheClears q) /\
    log (tab (logout_finally q))
      = log (tab q)
          ++ (if authChannel (auth (tab q)) then [PostMessage Logout] else [])
          ++ [QueryClientClear]).
  { intros q.
    destruct (clearAllAuth_frame (tab q)) as (Ht & Hx & _ & _ & _ & Hs & Hl).
    unfold logout_finally. cbn -[clearAllAuth].
    rewrite Ht, Hx, Hs, Hl, <- app_assoc.
    repeat split; try done.
    apply lookup_delete_eq. }
  intros p'. unfold p', logout_run, logout.
  destruct (userState (tab p)) as [u|] eqn:Hu.
  - assert (Hres : forall q, logout_resume r q = logout_finally q)
      by (intros q; by destruct r).
    rewrite Hres.
    destruct (Hfin (on_tab (apiClient logoutRequest) p))
      as (H1 & H2 & H3 & H4 & H5 & H6).
    repeat split; try done. rewrite H6. simpl. by rewrite <- app_assoc.
  - destruct (Hfin p) as (H1 & H2 & H3 & H4 & H5 & H6).
    repeat split; done.
Qed.

(** X6. The refresh on startup. Without a readable stored user no
    request is made and the provider is bootstrapped at once. With one,
    the refresh endpoint is called; a new token is kept in memory and
    user and storage stay as they are; a failure clears token, stored
    user and user state and posts a logout when the channel is open. In
    both cases the provider is bootstrapped afterwards if it is still
    mounted. *)
Theorem startup_refresh_outcomes (r : string + AxiosError) (p : Provider) :
  let p' := attemptRefresh_run r p in
  let call := Send (requestInterceptor (tab p) refreshRequest) in
  match getStoredUser (tab p), r with
  | None, _ => tab p' = tab p /\ bootstrapped p' = true
  | Some _, inl accessToken =>
      accessTokenMemory (auth (tab p')) = Some accessToken /\
      userState (tab p') = userState (tab p) /\
      localStorage (window (tab p')) = localStorage (window (tab p)) /\
      log (tab p') = log (tab p) ++ [call] /\
      bootstrapped p' = mounted p || bootstrapped p
  | Some _, inr _ =>
      accessTokenMemory (auth (tab p')) = None /\
      localStorage (window (tab p')) !! "user" = None /\
      userState (tab p') = None /\
      log (tab p')
        = log (tab p) ++ [call]
            ++ (if authChannel (auth (tab p)) then [PostMessage Logout] else []) /\
      bootstrapped p' = mounted p || bootstrapped p
  end.
Proof.
  intros p' call. unfold p', attemptRefresh_run, attemptRefresh.
  destruct (getStoredUser (tab p)) as [u|]; [| done].
  destruct r as [accessToken | e]; unfold attemptRefresh_resume.
  - destruct (setAccessToken_frame (Some accessToken)
                (apiClient refreshRequest (tab p)))
      as (Ht & _ & Hs & _ & _ & _ & Hu & Hl).
    cbn -[setAccessToken apiClient].
    destruct (mounted p); cbn -[setAccessToken apiClient];
      rewrite Ht, Hs, Hu, Hl; done.
  - destruct (clearAllAuth_frame (apiClient refreshRequest (tab p)))
      as (Ht & _ & _ & _ & _ & Hs & Hl).
    cbn -[clearAllAuth apiClient].
    destruct (mounted p); cbn -[clearAllAuth apiClient];
      rewrite Ht, Hs, Hl; simpl; rewrite <- app_assoc;
      (repeat split; try done; apply lookup_delete_eq).
Qed.

(** X7. The stored user survives the trip through [localStorage] when
    the parser reads back what [JSON.stringify] wrote: after
    [setStoredUser(user)] and after [persistLoginInfo], [getStoredUser]
    gives that user, and syncing from storage puts it into the user
    state. After [setStoredUser(null)], [clearLocalAuth] or
    [clearAllAuth] it gives nothing, and so it does for a stored text
    the parser rejects. *)
Theorem stored_user_round_trip (user : StoredUser) (accessToken : string)
    (w : World) :
  JSON_parse (JSON_stringify user) = Some user ->
  Js.truthy (JSON_stringify user) = true ->
  getStoredUser (setStoredUser (Some user) w) = Some user /\
  getStoredUser (persistLoginInfo user accessToken w) = Some user /\
  userState (handleStorage (Some "user") (setStoredUser (Some user) w))
    = Some user /\
  getStoredUser (setStoredUser None w) = None /\
  getStoredUser (clearLocalAuth w) = None /\
  getStoredUser (clearAllAuth w) = None /\
  (forall raw, JSON_parse raw = None ->
     getStoredUser (on_window (setItem "user" raw) w) = None).
Proof.
  intros Hparse Htruthy.
  assert (Hset : getStoredUser (setStoredUser (Some user) w) = Some user).
  { unfold getStoredUser. simpl. rewrite lookup_insert_eq. by rewrite Htruthy. }
  split; [done |]. split; [| split; [| split; [| split; [| split]]]].
  - unfold getStoredUser, persistLoginInfo, broadcastAuthChange. cbv zeta.
    destruct (setAccessToken_frame (Some accessToken)
                (setStoredUser (Some user) w)) as (_ & _ & Hs & _).
    destruct (authChannel _); cbn -[setAccessToken setStoredUser];
      rewrite Hs; apply Hset.
  - simpl handleStorage. unfold syncUserFromStorage. simpl userState.
    apply Hset.
  - unfold getStoredUser. simpl. by rewrite lookup_delete_eq.
  - unfold getStoredUser.
    destruct (clearLocalAuth_frame w) as (_ & _ & _ & _ & ->).
    by rewrite lookup_delete_eq.
  - unfold getStoredUser.
    destruct (clearAllAuth_frame w) as (_ & _ & _ & _ & _ & -> & _).
    by rewrite lookup_delete_eq.
  - intros raw Hraw. unfold getStoredUser. simpl. rewrite lookup_insert_eq.
    rewrite Hraw. by destruct (Js.truthy raw).
Qed.

End TabMoreFacts.

(** *** Examples on concrete tabs, continued *)

Section TabMoreExamples.

#[local] Existing Instance exampleBuiltins.
#[local] Existing Instance exampleParse.

Lemma noChannelTab_reachable : reachable noChannelTab.
Proof.
  exists false, ∅, "/inbox", None, [PersistLogin exampleUser "expired.token"].
  apply (bool_decide_unpack _). vm_compute. exact I.
Qed.

Lemma refreshedTab_reachable : reachable refreshedTab.
Proof.
  exists true, ∅, "/inbox", None,
    [PersistLogin exampleUser "expired.token";
     ResponseError (example401 "/api/mailboxes");
     RefreshResponse 0 (inl "fresh.token")].
  apply (bool_decide_unpack _). vm_compute. exact I.
Qed.


Lemma no_channel_no_broadcast_witness :
  authChannel (auth noChannelTab) = false /\ posted (log noChannelTab) = [].
Proof.
  apply (no_channel_no_broadcast noChannelTab noChannelTab_reachable).
  reflexivity.
Defined.

Lemma resubmitted_request_is_not_retried_again_witness :
  let s := requestInterceptor refreshedTab
             (setAuthorization (bearer "fresh.token")
                (markRetry (exampleRequest "/api/mailboxes"))) in
  _retry s = true /\
  onResponseError (mkError s (Some 401)) refreshedTab
    = (refreshedTab, Rejected (mkError s (Some 401))).
Proof.
  intros s.
  destruct (resubmitted_request_is_not_retried_again refreshedTab
              (markRetry (exampleRequest "/api/mailboxes")) s
              refreshedTab_reachable)
    as (Hmark & _ & Hrej).
  - apply (bool_decide_unpack _). vm_compute. exact I.
  - split; [exact Hmark | exact (proj1 (Hrej (Some 401) refreshedTab))].
Defined.

Lemma login_reaches_other_tabs_witness :
  accessTokenMemory
    (auth (deliver [Login exampleUser "fresh.token"] noChannelTab))
  = accessTokenMemory (auth (persistLoginInfo exampleUser "fresh.token" loggedIn)).
Proof.
  destruct (login_reaches_other_tabs loggedIn noChannelTab exampleUser
              "fresh.token" eq_refl)
    as (_ & _ & _ & Hsame & _).
  exact Hsame.
Defined.

Lemma stored_user_round_trip_witness :
  getStoredUser (setStoredUser (Some exampleUser) loggedIn) = Some exampleUser /\
  getStoredUser (clearAllAuth loggedIn) = None.
Proof.
  destruct (stored_user_round_trip exampleUser "fresh.token" loggedIn)
    as (Hset & _ & _ & _ & _ & Hclear & _).
  - reflexivity.
  - reflexivity.
  - split; assumption.
Defined.

End TabMoreExamples.

(** ** The facade, continued *)

Section FacadeMoreFacts.

Context {Mailbox EmailItem Meta EmailDetail : Type}.
Context {SendEmailResponse ReplyEmailResponse ModifyEmailResponse : Type}.

Local Abbreviation Facade := (@Facade Mailbox EmailItem Meta EmailDetail).
Local Abbreviation Cache := (@Cache Mailbox EmailItem Meta EmailDetail).

(** X8. A read of the mailbox list that misses the cache issues the
    live call, detaches nothing and waits. When the call succeeds the
    read resolves with the response and the cache holds its list, so
    that the next read returns this list at once; when it fails the
    read throws the failure, the cache is untouched and the next read
    misses again. *)
Theorem mailboxes_miss_then_hit (s s2 : Facade) (response : MailboxResponse)
    (message : string) :
  getCachedMailboxes (cache s) = None ->
  getMailboxesCached s
    = (mkFacade (cache s) (background s) (effects s ++ [Fetch GetMailboxes]),
       Suspended ()) /\
  (let '(s3, r) := getMailboxesCached_resume (inr response) s2 in
   r = Resolved response /\
   snd (getMailboxesCached s3)
     = Returned (mkMailboxResponse "success" (mr_mailboxes response))) /\
  (getMailboxesCached_resume (inl message) s2 = (s2, Thrown message)) /\
  (cache s2 = cache s ->
   snd (getMailboxesCached
          (fst (getMailboxesCached_resume (inl message : string + MailboxResponse) s2)))
     = Suspended ()).
Proof.
  intros Hmiss. split; [| split; [| split]].
  - unfold getMailboxesCached. by rewrite Hmiss.
  - done.
  - done.
  - intros Hc. simpl. unfold getMailboxesCached. by rewrite Hc, Hmiss.
Qed.

(** X9. Email-list pages are cached per mailbox id and page token. A
    first-page read with a cached page returns it at once and detaches
    the live call; every other read waits for the live call. A live
    success is stored under the mailbox id and page token of the read
    and resolves with the live response even when a cached copy
    exists; it leaves every other page as it was, and a first-page read
    of that mailbox afterwards is served from the cache. *)
Theorem email_list_pages_are_keyed (s s2 : Facade) (mailboxId : string)
    (pageToken : option string) (pageSize : option nat)
    (response : MailboxEmailsResponse) :
  let call := Fetch (GetMailboxEmailsInfinite mailboxId pageToken
                       (default 20 pageSize)) in
  (forall c, pageToken = None ->
     getCachedEmailList mailboxId None (cache s) = Some c ->
     getMailboxEmailsInfiniteCached mailboxId pageToken pageSize s
     = (mkFacade (cache s) (background s ++ [BgEmailList mailboxId None])
          (effects s ++ [call]),
        Returned (mkMailboxEmailsResponse "success" (list_data c) (list_meta c)))) /\
  (pageToken <> None \/ getCachedEmailList mailboxId None (cache s) = None ->
   exists k,
     getMailboxEmailsInfiniteCached mailboxId pageToken pageSize s
     = (mkFacade (cache s) (background s) (effects s ++ [call]), Suspended k) /\
     wait_mailboxId k = mailboxId /\ wait_pageToken k = pageToken) /\
  (forall k, wait_mailboxId k = mailboxId -> wait_pageToken k = pageToken ->
     let '(s3, r) := getMailboxEmailsInfiniteCached_resume k (inr response) s2 in
     r = Resolved response /\
     getCachedEmailList mailboxId pageToken (cache s3)
       = Some (mkCachedEmailList (er_data response) (er_meta response)) /\
     (forall m t, (m, t) <> (mailboxId, pageToken) ->
        getCachedEmailList m t (cache s3) = getCachedEmailList m t (cache s2)) /\
     getCachedMailboxes (cache s3) = getCachedMailboxes (cache s2) /\
     (pageToken = None ->
      snd (getMailboxEmailsInfiniteCached mailboxId None pageSize s3)
        = Returned (mkMailboxEmailsResponse "success"
                      (er_data response) (er_meta response)))).
Proof.
  intros call. split; [| split].
  - intros c -> Hc. unfold getMailboxEmailsInfiniteCached. by rewrite Hc.
  - intros Hcase.
    exists (mkEmailListWait mailboxId pageToken
              (getCachedEmailList mailboxId pageToken (cache s))).
    split; [| done].
    unfold getMailboxEmailsInfiniteCached.
    destruct pageToken as [t|]; [done |].
    destruct Hcase as [Hne | Hmiss]; [done |]. by rewrite Hmiss.
  - intros k Hm Ht. simpl. rewrite Hm, Ht.
    split; [done |].
    assert (Hhit : getCachedEmailList mailboxId pageToken
                     (cacheEmailList mailboxId pageToken (er_data response)
                        (er_meta response) (cache s2))
                   = Some (mkCachedEmailList (er_data response) (er_meta response))).
    { unfold getCachedEmailList, cacheEmailList. simpl.
      by rewrite lookup_insert_eq. }
    split; [done |]. split; [| split; [done |]].
    + intros m t Hne. unfold getCachedEmailList, cacheEmailList. simpl.
      by rewrite lookup_insert_ne.
    + intros ->. unfold getMailboxEmailsInfiniteCached. simpl cache.
      by rewrite Hhit.
Qed.

(** X10. Email details behave like the mailbox list, per email id: a
    cached detail is returned at once while the live call runs
    detached; when that call succeeds it replaces the detail of this
    email and of no other, when it fails it only warns. A read that
    misses waits, stores and returns the live detail, and throws when
    the live call fails. *)
Theorem email_detail_is_cache_first (s s2 : Facade) (emailId : string) :
  (forall cached, getCachedEmail emailId (cache s) = Some cached ->
     getEmailDetailCached emailId s
     = (mkFacade (cache s) (background s ++ [BgEmailDetail emailId])
          (effects s ++ [Fetch (GetEmailDetail emailId)]),
        Returned (mkEmailDetailResponse "success" (email_data cached)))) /\
  (getCachedEmail emailId (cache s) = None ->
     getEmailDetailCached emailId s
     = (mkFacade (cache s) (background s)
          (effects s ++ [Fetch (GetEmailDetail emailId)]),
        Suspended emailId)) /\
  (forall response : EmailDetailResponse,
     let s3 := settleBackground (BgEmailDetail emailId) (inr response) s2 in
     getCachedEmail emailId (cache s3) = Some (mkCachedEmail (dr_data response)) /\
     (forall other, other <> emailId ->
        getCachedEmail other (cache s3) = getCachedEmail other (cache s2)) /\
     getEmailDetailCached_resume emailId (inr response) s2
       = (s3, Resolved response)) /\
  (forall message : string,
     cache (settleBackground (BgEmailDetail emailId) (inl message) s2) = cache s2 /\
     getEmailDetailCached_resume emailId (inl message) s2 = (s2, Thrown message)).
Proof.
  split; [| split; [| split]].
  - intros cached Hc. unfold getEmailDetailCached. by rewrite Hc.
  - intros Hc. unfold getEmailDetailCached. by rewrite Hc.
  - intros response s3. split; [| split; [| done]].
    + unfold s3, getCachedEmail. simpl. by rewrite lookup_insert_eq.
    + intros other Hne. unfold s3, getCachedEmail. simpl.
      by rewrite lookup_insert_ne.
  - done.
Qed.

(** X11. What the mutations do to the cache. A mutation whose live call
    fails throws the failure and leaves the cache alone. After a
    successful send or forward no email-list page is cached, and the
    mailbox list and the details are as before. A successful reply
    drops, in addition, the detail of the email replied to. A
    successful modify drops the detail of that email, every list page
    and the mailbox list, whether it deletes or not; the details of
    other emails stay. *)
Theorem mutations_invalidate (c : Cache) (emailId : string)
    (data : ModifyEmailData) :
  (forall message : string,
     sendEmailWithCacheInvalidation
       (inl message : string + SendEmailResponse) c = (c, Thrown message) /\
     replyEmailWithCacheInvalidation emailId
       (inl message : string + ReplyEmailResponse) c = (c, Thrown message) /\
     forwardEmailWithCacheInvalidation emailId
       (inl message : string + SendEmailResponse) c = (c, Thrown message) /\
     modifyEmailWithCacheInvalidation emailId data
       (inl message : string + ModifyEmailResponse) c = (c, Thrown message)) /\
  (forall (r : SendEmailResponse),
     let c' := fst (sendEmailWithCacheInvalidation (inr r) c) in
     forwardEmailWithCacheInvalidation emailId (inr r) c = (c', Resolved r) /\
     (forall m t, getCachedEmailList m t c' = None) /\
     getCachedMailboxes c' = getCachedMailboxes c /\
     (forall id, getCachedEmail id c' = getCachedEmail id c)) /\
  (forall (r : ReplyEmailResponse),
     let c' := fst (replyEmailWithCacheInvalidation emailId (inr r) c) in
     (forall m t, getCachedEmailList m t c' = None) /\
     getCachedMailboxes c' = getCachedMailboxes c /\
     getCachedEmail emailId c' = None /\
     (forall id, id <> emailId -> getCachedEmail id c' = getCachedEmail id c)) /\
  (forall (r : ModifyEmailResponse),
     let c' := fst (modifyEmailWithCacheInvalidation emailId data (inr r) c) in
     (forall m t, getCachedEmailList m t c' = None) /\
     getCachedMailboxes c' = None /\
     getCachedEmail emailId c' = None /\
     (forall id, id <> emailId -> getCachedEmail id c' = getCachedEmail id c)).
Proof.
  split; [done |]. split; [| split].
  - intros r c'. repeat split; try done.
  - intros r c'. unfold c', getCachedEmail. simpl.
    repeat split; try done.
    + by rewrite lookup_delete_eq.
    + intros id Hne. by rewrite lookup_delete_ne.
  - intros r c'. unfold c', getCachedEmail. simpl.
    destruct (truthyFlag (md_delete data)); simpl;
      (repeat split; try done;
       [by rewrite lookup_delete_eq | intros id Hne; by rewrite lookup_delete_ne]).
Qed.

End FacadeMoreFacts.

(** ** The selection hook *)

Section SelectionFacts.

Context {EmailListItem : Type} (id : EmailListItem -> string).

Lemma filter_keeps_all (x : string) (l : list string) :
  x ∉ l -> filter (fun i => i <> x) l = l.
Proof.
  induction l as [|a l IH]; [done |].
  intros Hx. apply not_elem_of_cons in Hx as [Hne Hx].
  rewrite filter_cons, decide_True by done. by rewrite IH.
Qed.

(** X12. Toggling an email flips whether it is selected and changes
    nothing for the others; a selection without repetitions stays
    without repetitions; toggling an unselected email twice gives the
    selection back as it was. *)
Theorem toggle_flips_selection (emailId : string) (prev : list string) :
  (emailId ∈ handleToggleSelect emailId prev <-> emailId ∉ prev) /\
  (forall i, i <> emailId ->
     (i ∈ handleToggleSelect emailId prev <-> i ∈ prev)) /\
  (NoDup prev -> NoDup (handleToggleSelect emailId prev)) /\
  (emailId ∉ prev ->
     handleToggleSelect emailId (handleToggleSelect emailId prev) = prev).
Proof.
  unfold handleToggleSelect.
  split; [| split; [| split]].
  - case_bool_decide as Hin.
    + rewrite list_elem_of_filter. tauto.
    + rewrite elem_of_app, list_elem_of_singleton. tauto.
  - intros i Hne. case_bool_decide as Hin.
    + rewrite list_elem_of_filter. tauto.
    + rewrite elem_of_app, list_elem_of_singleton. tauto.
  - intros Hnd. case_bool_decide as Hin.
    + by apply NoDup_filter.
    + apply NoDup_app. split; [done |]. split; [| apply NoDup_singleton].
      intros x Hx Hx'. apply list_elem_of_singleton in Hx'. by subst.
  - intros Hout. rewrite (bool_decide_eq_false_2 _ Hout).
    rewrite bool_decide_eq_true_2
      by (rewrite elem_of_app, list_elem_of_singleton; by right).
    rewrite filter_app, filter_keeps_all by done.
    rewrite filter_cons, decide_False by tauto. by rewrite app_nil_r.
Qed.

(** X13. Select-all looks at the number of selected ids only: on a
    list that is not empty, a selection as long as the list is cleared
    and any other selection is replaced by the ids of all emails, in
    the order of the list; so using it twice ends with everything
    selected exactly when the selection was that long to begin with.
    On an empty list it does nothing. *)
Theorem select_all_toggles (emails : list EmailListItem) (prev : list string) :
  handleSelectAll id [] prev = prev /\
  (emails <> [] ->
   handleSelectAll id emails prev
     = (if bool_decide (length prev = length emails) then []
        else map id emails) /\
   handleSelectAll id emails (handleSelectAll id emails prev)
     = (if bool_decide (length prev = length emails) then map id emails
        else [])).
Proof.
  split; [done |]. intros Hne.
  destruct emails as [|e emails]; [done |].
  assert (Hfirst : handleSelectAll id (e :: emails) prev
                   = if bool_decide (length prev = length (e :: emails)) then []
                     else map id (e :: emails)).
  { unfold handleSelectAll.
    destruct (Nat.eqb_spec (length prev) (length (e :: emails))) as [Heq | Hneq].
    - by rewrite bool_decide_eq_true_2.
    - by rewrite bool_decide_eq_false_2. }
  split; [done |]. rewrite Hfirst.
  case_bool_decide as Hlen.
  - done.
  - unfold handleSelectAll. by rewrite length_map, Nat.eqb_refl.
Qed.

Lemma findSelected_Some (emails : list EmailListItem) (s : string) :
  s ∈ map id emails -> is_Some (findSelected id emails (Some s)).
Proof.
  intros Hin. apply list_elem_of_fmap in Hin as (e & -> & He).
  unfold findSelected.
  destruct (list_find_elem_of (fun x => id x = id e) emails e He eq_refl)
    as [[i y] Hf].
  rewrite Hf. by eexists.
Qed.

Lemma findSelected_None (emails : list EmailListItem) (sel : option string) :
  findSelected id emails sel = None ->
  forall s, sel = Some s -> s ∉ map id emails.
Proof.
  intros Hnone s -> Hin.
  destruct (findSelected_Some emails s Hin) as [i Hi]. congruence.
Qed.

(** X14. The selection never points at an email that is not in the
    list: after the effect the selected id is that of an email of the
    list, or there is none. On an empty list there is none; a selected
    id that is still in the list is kept; in every other case the
    first email of the list is selected (none if its id is empty).
    Running the effect again changes nothing. *)
Theorem auto_select_stays_in_list (emails : list EmailListItem)
    (selectedEmailId : option string) :
  let next := autoSelect id emails selectedEmailId in
  (forall s, next = Some s -> s ∈ map id emails) /\
  (emails = [] -> next = None) /\
  (forall s, selectedEmailId = Some s -> s ∈ map id emails ->
             next = selectedEmailId) /\
  (forall e rest, emails = e :: rest ->
     (forall s, selectedEmailId = Some s -> s ∉ map id emails) ->
     next = if Js.truthy (id e) then Some (id e) else None) /\
  autoSelect id emails next = next.
Proof.
  intros next.
  assert (Hfresh : forall e rest, emails = e :: rest ->
            findSelected id emails selectedEmailId = None ->
            next = if Js.truthy (id e) then Some (id e) else None).
  { intros e rest -> Hnone. unfold next, autoSelect. rewrite Hnone.
    replace (Z.to_nat (Z.min 0 (Z.of_nat (length (e :: rest)) - 1))) with 0
      by (simpl length; lia).
    simpl. by destruct (Js.truthy (id e)). }
  assert (Hkept : forall i, findSelected id emails selectedEmailId = Some i ->
            emails <> [] -> next = selectedEmailId).
  { intros i Hi Hne. unfold next, autoSelect.
    destruct emails; [done |]. by rewrite Hi. }
  assert (Hin : forall s, next = Some s -> s ∈ map id emails).
  { intros s Hs. destruct emails as [|e rest] eqn:He; [done |].
    destruct (findSelected id (e :: rest) selectedEmailId) as [i|] eqn:Hf.
    - rewrite (Hkept i eq_refl) in Hs by done. subst selectedEmailId.
      unfold findSelected in Hf.
      destruct (list_find (fun x => id x = s) (e :: rest)) as [[j y]|] eqn:Hl;
        [| done].
      apply list_find_Some in Hl as (Hj & <- & _).
      apply list_elem_of_fmap. exists y. split; [done |].
      by eapply list_elem_of_lookup_2.
    - rewrite (Hfresh e rest eq_refl eq_refl) in Hs.
      destruct (Js.truthy (id e)); [| done]. injection Hs as <-.
      simpl. apply list_elem_of_here. }
  split; [done |]. split; [by intros -> |]. split; [| split].
  - intros s -> Hs. destruct (findSelected_Some emails s Hs) as [i Hi].
    apply (Hkept i Hi). intros ->. by apply not_elem_of_nil in Hs.
  - intros e rest He Hout. apply (Hfresh e rest He).
    destruct (findSelected id emails selectedEmailId) as [i|] eqn:Hf; [| done].
    destruct selectedEmailId as [s|]; [| done].
    exfalso. apply (Hout s eq_refl).
    unfold findSelected in Hf.
    destruct (list_find (fun x => id x = s) emails) as [[j y]|] eqn:Hl; [| done].
    apply list_find_Some in Hl as (Hj & <- & _).
    apply list_elem_of_fmap. exists y. split; [done |].
    by eapply list_elem_of_lookup_2.
  - destruct emails as [|e rest]; [done |].
    destruct (findSelected id (e :: rest) selectedEmailId) as [i|] eqn:Hf.
    + rewrite (Hkept i eq_refl) by done. unfold autoSelect. by rewrite Hf.
    + rewrite (Hfresh e rest eq_refl eq_refl).
      destruct (Js.truthy (id e)) eqn:Ht.
      * destruct (findSelected_Some (e :: rest) (id e)) as [j Hj];
          [apply list_elem_of_here |].
        unfold autoSelect. by rewrite Hj.
      * unfold autoSelect.
        replace (Z.to_nat (Z.min 0 (Z.of_nat (length (e :: rest)) - 1))) with 0
          by (simpl length; lia).
        simpl. by rewrite Ht.
Qed.

End SelectionFacts.

(** ** The utilities *)

Lemma length_append (a b : string) :
  String.length (a +:+ b) = String.length a + String.length b.
Proof.
  induction a as [|x a IH]; [done |].
  rewrite append_cons. simpl. by rewrite IH.
Qed.

Lemma length_takeString (n : nat) (s : string) :
  String.length (takeString n s) = Nat.min n (String.length s).
Proof.
  revert s. induction n as [|n IH]; intros [|a s]; simpl; try done.
  by rewrite IH.
Qed.

Lemma takeString_prefix (n : nat) (s : string) :
  exists rest, s = takeString n s +:+ rest.
Proof.
  revert s. induction n as [|n IH]; intros s.
  - exists s. by destruct s.
  - destruct s as [|a s]; [by exists "" |].
    destruct (IH s) as [rest Hr]. exists rest.
    simpl. rewrite append_cons. by rewrite <- Hr.
Qed.

(** X15. [truncateText] with a limit that is not negative: a text no
    longer than the limit (and the empty text) comes back unchanged;
    a longer text comes back as its first [maxLength] characters
    followed by three dots, which is [maxLength + 3] characters, three
    more than the limit and possibly more than the text had. *)
Theorem truncateText_length (text : string) (maxLength : Z) :
  (0 <= maxLength)%Z ->
  (Z.of_nat (String.length text) <= maxLength ->
   truncateText text maxLength = text)%Z /\
  (maxLength < Z.of_nat (String.length text) ->
   truncateText text maxLength
     = takeString (Z.to_nat maxLength) text +:+ "..." /\
   (exists rest, text = takeString (Z.to_nat maxLength) text +:+ rest) /\
   Z.of_nat (String.length (truncateText text maxLength)) = maxLength + 3)%Z /\
  (Z.of_nat (String.length (truncateText text maxLength)) <= maxLength + 3)%Z.
Proof.
  intros Hmax.
  assert (Hshort : (Z.of_nat (String.length text) <= maxLength)%Z ->
                   truncateText text maxLength = text).
  { intros Hle. unfold truncateText.
    rewrite (proj2 (Z.leb_le _ _) Hle). by rewrite orb_true_r. }
  assert (Hlong : (maxLength < Z.of_nat (String.length text))%Z ->
                  truncateText text maxLength
                  = takeString (Z.to_nat maxLength) text +:+ "...").
  { intros Hlt. unfold truncateText, slice0.
    destruct text as [|a text]; [simpl in Hlt; lia |].
    rewrite (proj2 (Z.leb_gt _ _) Hlt).
    rewrite (proj2 (Z.ltb_ge _ _) Hmax). simpl negb. simpl orb.
    by rewrite Z.min_l by lia. }
  assert (Hlen : (maxLength < Z.of_nat (String.length text))%Z ->
                 (Z.of_nat (String.length (truncateText text maxLength))
                  = maxLength + 3)%Z).
  { intros Hlt. rewrite (Hlong Hlt), length_append, length_takeString.
    simpl. lia. }
  split; [done |]. split.
  - intros Hlt. split; [by apply Hlong |]. split; [| by apply Hlen].
    apply takeString_prefix.
  - destruct (Z.le_gt_cases (Z.of_nat (String.length text)) maxLength) as [Hle | Hlt].
    + rewrite (Hshort Hle). lia.
    + rewrite (Hlen Hlt). lia.
Qed.

Lemma single_append (a : Ascii.ascii) (s : string) :
  String a "" +:+ s = String a s.
Proof. reflexivity. Qed.

Lemma hyphen_included (pre post : string) :
  Js.includes (pre +:+ "-" +:+ post) "-" = true.
Proof. apply includes_spec. by exists pre, post. Qed.

(** X16. The keys of kanban items tell them apart as long as the status
    has no hyphen in it, as is the case for the five values of
    [EMAIL_STATUS]: two items with the same key have the same message
    id and the same status. *)
Theorem getItemKey_injective (a b : KanbanEmailItem) :
  Js.includes (item_status a) "-" = false ->
  Js.includes (item_status b) "-" = false ->
  getItemKey a = getItemKey b ->
  a = b.
Proof.
  destruct a as [m1 s1], b as [m2 s2]. unfold getItemKey. simpl.
  intros H1 H2. revert m2.
  induction m1 as [|x m1 IH]; intros [|y m2] Heq;
    repeat (rewrite append_nil in Heq || rewrite append_cons in Heq).
  - by injection Heq as ->.
  - injection Heq as _ Heq.
    assert (Hh : Js.includes s1 "-" = true)
      by (rewrite Heq; exact (hyphen_included m2 s2)).
    congruence.
  - injection Heq as _ Heq.
    assert (Hh : Js.includes s2 "-" = true)
      by (rewrite <- Heq; exact (hyphen_included m1 s1)).
    congruence.
  - injection Heq as -> Heq.
    by injection (IH m2 Heq) as -> ->.
Qed.

Lemma EMAIL_STATUS_no_hyphen (s : string) :
  s ∈ EMAIL_STATUS -> Js.includes s "-" = false.
Proof.
  intros Hin. apply list_elem_of_In in Hin. simpl in Hin.
  destruct Hin as [<- | [<- | [<- | [<- | [<- | []]]]]]; reflexivity.
Qed.

Section DateFacts.

Variable toLocaleDateString : Z -> Z -> string.

Lemma div_below (a k c : Z) : (0 < k)%Z -> (a / k <? c)%Z = (a <? k * c)%Z.
Proof.
  intros Hk. destruct (Z.ltb_spec a (k * c)) as [Hlt | Hge].
  - apply Z.ltb_lt. by apply Z.div_lt_upper_bound.
  - apply Z.ltb_ge. by apply Z.div_le_lower_bound.
Qed.

(** X17. [getRelativeTime] by the age of the date in milliseconds.
    Below one minute, and for every date in the future, it says
    [Just now]; from one minute to below one hour it shows the whole
    minutes (1 to 59), from one hour to below one day the whole hours
    (1 to 23), from one day to below seven days the whole days (1 to
    6); from seven days on it shows the date. *)
Theorem getRelativeTime_buckets (now date : Z) :
  let age := (now - date)%Z in
  let shown := getRelativeTime toLocaleDateString now date in
  ((age < 60000)%Z -> shown = "Just now") /\
  ((60000 <= age < 3600000)%Z ->
     shown = pretty (age / 60000)%Z +:+ "m ago" /\ (1 <= age / 60000 <= 59)%Z) /\
  ((3600000 <= age < 86400000)%Z ->
     shown = pretty (age / 3600000)%Z +:+ "h ago" /\
     (1 <= age / 3600000 <= 23)%Z) /\
  ((86400000 <= age < 604800000)%Z ->
     shown = pretty (age / 86400000)%Z +:+ "d ago" /\
     (1 <= age / 86400000 <= 6)%Z) /\
  ((604800000 <= age)%Z -> shown = toLocaleDateString date now).
Proof.
  intros age shown. unfold shown, getRelativeTime. fold age.
  assert (Hmin : (age / 1000 / 60 = age / 60000)%Z)
    by (rewrite Z.div_div by lia; done).
  assert (Hhour : (age / 1000 / 60 / 60 = age / 3600000)%Z)
    by (rewrite Hmin, Z.div_div by lia; done).
  assert (Hday : (age / 1000 / 60 / 60 / 24 = age / 86400000)%Z)
    by (rewrite Hhour, Z.div_div by lia; done).
  rewrite Hday, Hhour, Hmin, !div_below by lia.
  assert (Hlo : forall k, (0 < k)%Z -> (k <= age)%Z -> (1 <= age / k)%Z).
  { intros k Hk Hge. apply Z.div_le_lower_bound; lia. }
  assert (Hhi : forall k c, (0 < k)%Z -> (age < k * (c + 1))%Z -> (age / k <= c)%Z).
  { intros k c Hk Hlt. apply Z.lt_succ_r. apply Z.div_lt_upper_bound; lia. }
  split; [| split; [| split; [| split]]].
  - intros Hage. by rewrite (proj2 (Z.ltb_lt age (1000 * 60))) by lia.
  - intros Hage. split; [| split; [apply Hlo | apply Hhi]; lia].
    rewrite (proj2 (Z.ltb_ge age (1000 * 60))) by lia.
    by rewrite (proj2 (Z.ltb_lt age (60000 * 60))) by lia.
  - intros Hage. split; [| split; [apply Hlo | apply Hhi]; lia].
    rewrite (proj2 (Z.ltb_ge age (1000 * 60))) by lia.
    rewrite (proj2 (Z.ltb_ge age (60000 * 60))) by lia.
    by rewrite (proj2 (Z.ltb_lt age (3600000 * 24))) by lia.
  - intros Hage. split; [| split; [apply Hlo | apply Hhi]; lia].
    rewrite (proj2 (Z.ltb_ge age (1000 * 60))) by lia.
    rewrite (proj2 (Z.ltb_ge age (60000 * 60))) by lia.
    rewrite (proj2 (Z.ltb_ge age (3600000 * 24))) by lia.
    by rewrite (proj2 (Z.ltb_lt age (86400000 * 7))) by lia.
  - intros Hage.
    rewrite (proj2 (Z.ltb_ge age (1000 * 60))) by lia.
    rewrite (proj2 (Z.ltb_ge age (60000 * 60))) by lia.
    rewrite (proj2 (Z.ltb_ge age (3600000 * 24))) by lia.
    by rewrite (proj2 (Z.ltb_ge age (86400000 * 7))) by lia.
Qed.

End DateFacts.

Section SnoozeFacts.

Variable toLocaleDateString : Z -> Z -> string.

(** X18. [formatSnoozeDate] counts whole periods of 24 hours from now,
    not calendar days: a date less than 24 hours ahead is [Today], one
    from 24 to below 48 hours ahead is [Tomorrow], one from two to
    below seven days ahead is [In n days] with n from 2 to 6, and every
    date in the past or seven days and more ahead is shown as a date. *)
Theorem formatSnoozeDate_buckets (now date : Z) :
  let ahead := (date - now)%Z in
  let shown := formatSnoozeDate toLocaleDateString now date in
  ((0 <= ahead < 86400000)%Z -> shown = "Today") /\
  ((86400000 <= ahead < 172800000)%Z -> shown = "Tomorrow") /\
  ((172800000 <= ahead < 604800000)%Z ->
     shown = "In " +:+ pretty (ahead / 86400000)%Z +:+ " days" /\
     (2 <= ahead / 86400000 <= 6)%Z) /\
  ((ahead < 0 \/ 604800000 <= ahead)%Z -> shown = toLocaleDateString date now).
Proof.
  intros ahead shown. unfold shown, formatSnoozeDate. fold ahead.
  change (1000 * 60 * 60 * 24)%Z with 86400000%Z.
  assert (Hlo : forall c, (86400000 * c <= ahead)%Z -> (c <= ahead / 86400000)%Z).
  { intros c Hc. apply Z.div_le_lower_bound; lia. }
  assert (Hhi : forall c, (ahead < 86400000 * c)%Z -> (ahead / 86400000 < c)%Z).
  { intros c Hc. apply Z.div_lt_upper_bound; lia. }
  split; [| split; [| split]].
  - intros Ha. pose proof (Hlo 0%Z). pose proof (Hhi 1%Z).
    by rewrite (proj2 (Z.eqb_eq _ _)) by lia.
  - intros Ha. pose proof (Hlo 1%Z). pose proof (Hhi 2%Z).
    rewrite (proj2 (Z.eqb_neq _ 0)) by lia.
    by rewrite (proj2 (Z.eqb_eq _ _)) by lia.
  - intros Ha. pose proof (Hlo 2%Z). pose proof (Hhi 7%Z).
    split; [| lia].
    rewrite (proj2 (Z.eqb_neq _ 0)) by lia.
    rewrite (proj2 (Z.eqb_neq _ 1)) by lia.
    rewrite (proj2 (Z.ltb_lt 1 _)) by lia.
    by rewrite (proj2 (Z.ltb_lt _ 7)) by lia.
  - intros [Ha | Ha].
    + pose proof (Hhi 0%Z).
      rewrite (proj2 (Z.eqb_neq _ 0)) by lia.
      rewrite (proj2 (Z.eqb_neq _ 1)) by lia.
      by rewrite (proj2 (Z.ltb_ge 1 _)) by lia.
    + pose proof (Hlo 7%Z).
      rewrite (proj2 (Z.eqb_neq _ 0)) by lia.
      rewrite (proj2 (Z.eqb_neq _ 1)) by lia.
      rewrite (proj2 (Z.ltb_ge _ 7)) by lia.
      by rewrite andb_false_r.
Qed.

End SnoozeFacts.


(** X20. A password is accepted exactly when it has 6 to 100
    characters, both ends included, and an error text is given exactly
    when it is not accepted: the text about the minimum below 6
    characters, the other one above 100. *)
Theorem validatePassword_bounds (password : string) :
  let n := String.length password in
  (isValid (validatePassword password) = true <-> 6 <= n <= 100) /\
  (error (validatePassword password) = None <->
   isValid (validatePassword password) = true) /\
  (n < 6 -> error (validatePassword password)
            = Some "Password must be at least 6 characters") /\
  (100 < n -> error (validatePassword password)
              = Some "Password must be less than 100 characters").
Proof.
  intros n. unfold validatePassword. fold n.
  destruct (Nat.ltb_spec n 6) as [Hlt | Hge];
    [| destruct (Nat.ltb_spec 100 n) as [Hbig | Hok]]; simpl;
    repeat split; intros; try done; lia.
Qed.

Lemma orElse_truthy (x : option string) (y : string) :
  Js.truthy y = true ->
  exists s, orElse x (Some y) = Some s /\ Js.truthy s = true.
Proof.
  intros Hy. destruct x as [s|]; simpl; [destruct (Js.truthy s) eqn:Hs |]; eauto.
Qed.

(** X21. The display name is never empty: it is [Guest] without a user,
    the name of the user when that is not empty, the email when there
    is no name, and [User] when both are empty. *)
Theorem display_name_is_never_empty (user : option StoredUser) :
  Js.truthy (getUserDisplayName user) = true /\
  (user = None -> getUserDisplayName user = "Guest") /\
  (forall u n, user = Some u -> name u = Some n -> Js.truthy n = true ->
     getUserDisplayName user = n) /\
  (forall u, user = Some u ->
     name u = None \/ name u = Some "" ->
     getUserDisplayName user = if Js.truthy (email u) then email u else "User").
Proof.
  split; [| split; [| split]].
  - destruct user as [u|]; [| done]. unfold getUserDisplayName.
    destruct (name u) as [n|]; simpl; [destruct (Js.truthy n) eqn:Hn |];
      simpl; try done; by destruct (Js.truthy (email u)) eqn:He.
  - by intros ->.
  - intros u n -> Hn Ht. unfold getUserDisplayName. rewrite Hn. simpl.
    by rewrite Ht.
  - intros u -> [Hn | Hn]; unfold getUserDisplayName; rewrite Hn; simpl;
      by destruct (Js.truthy (email u)).
Qed.

(** *** Examples, continued *)

Lemma mailboxes_miss_then_hit_witness :
  let s := mkFacade (mkCache None ∅ ∅ : @Cache string string string string)
             [] [] in
  getMailboxesCached s
  = (mkFacade (cache s) [] [Fetch GetMailboxes], Suspended ()).
Proof.
  intros s.
  exact (proj1 (mailboxes_miss_then_hit s s (mkMailboxResponse "success" ["INBOX"])
                  "offline" eq_refl)).
Defined.

Lemma truncateText_length_witness :
  truncateText "Quarterly report" 9 = "Quarterly...".
Proof.
  assert (Hlimit : (0 <= 9)%Z) by lia.
  destruct (truncateText_length "Quarterly report" 9 Hlimit) as (_ & Hcut & _).
  assert (Hlong : (9 < Z.of_nat (String.length "Quarterly report"))%Z)
    by (simpl; lia).
  destruct (Hcut Hlong) as (Heq & _).
  exact Heq.
Defined.

Lemma getItemKey_injective_witness :
  mkKanbanEmailItem "18c-f2" "IN_PROGRESS" = mkKanbanEmailItem "18c-f2" "IN_PROGRESS".
Proof.
  apply getItemKey_injective; reflexivity.
Defined.

Lemma getRelativeTime_buckets_witness :
  getRelativeTime (fun _ _ => "Nov 2") 1800000000000 1799999700000 = "5m ago".
Proof.
  destruct (getRelativeTime_buckets (fun _ _ => "Nov 2")
              1800000000000 1799999700000) as (_ & Hmin & _).
  assert (Hage : (60000 <= 1800000000000 - 1799999700000 < 3600000)%Z) by lia.
  exact (proj1 (Hmin Hage)).
Defined.

Lemma formatSnoozeDate_buckets_witness :
  formatSnoozeDate (fun _ _ => "Nov 2") 1800000000000 1800259200000
  = "In 3 days".
Proof.
  destruct (formatSnoozeDate_buckets (fun _ _ => "Nov 2")
              1800000000000 1800259200000) as (_ & _ & Hdays & _).
  assert (Hahead : (172800000 <= 1800259200000 - 1800000000000 < 604800000)%Z)
    by lia.
  exact (proj1 (Hdays Hahead)).
Defined.
